(** * git-who: the tally engine ([internal/tally/tally.go])

    A shallow embedding of the aggregation core of git-who and the
    properties its specification states about it.

    Conventions of the embedding:
    - Go's [int] and [int64] are 64-bit two's-complement integers; they are
      [Z] here and every addition the code performs is wrapped by [wrap64].
    - [time.Time] is an instant, represented by its number of nanoseconds
      since the Unix epoch.
    - A Go [map] is a reference.  The commit-identifier set of an
      [intermediateTally] is therefore a location into a store of maps
      ([heap]), and the functions that read or write such sets thread the
      store (monad [M]).  Maps that the code only reads, or that no claim
      observes through an alias, are [gmap] values.
    - A Go function returning [(T, error)] returns [Ok v] for [(v, nil)] and
      [Fail e] for [(nil, e)].
    - A panic is [None]. *)

From Stdlib Require Import ZArith Lia.
From stdpp Require Import base option list gmap strings sorting.

Local Open Scope Z_scope.
Set Warnings "-clear-no-such-hyp".

(** ** Machine integers *)

Module Int.

(** The value of a mathematical integer once stored in a 64-bit [int]. *)
Definition wrap64 (z : Z) : Z := (z + 2 ^ 63) `mod` 2 ^ 64 - 2 ^ 63.

(** [a + b] on Go's [int]. *)
Definition add (a b : Z) : Z := wrap64 (a + b).

Definition in_range (z : Z) : Prop := - 2 ^ 63 ≤ z < 2 ^ 63.

End Int.

(** ** Time *)

Module time.

(** [time.Time], an instant: nanoseconds since 1970-01-01T00:00:00Z. *)
Definition Time : Type := Z.

(** The zero value of [time.Time]: 0001-01-01T00:00:00Z. *)
Definition zero : Time := -62135596800 * 10 ^ 9.

(** [t.Unix()]: whole seconds since the epoch. *)
Definition Unix (x : Time) : Z := x `div` 10 ^ 9.

(** [a.Compare(b)]: -1, 0 or +1. *)
Definition Compare (a b : Time) : Z :=
  if a <? b then -1 else if b <? a then 1 else 0.

End time.

Module timeutils.

(** Modelled from the spec: [timeutils.Max] is not among the sources; the
    spec says of every place that calls it that the resulting timestamp "is
    the maximum" of the two. *)
Definition Max (a b : time.Time) : time.Time := Z.max a b.

End timeutils.

(** ** Errors *)

(** [errors.New(msg)] and [fmt.Errorf(prefix ++ "%w", inner)]. *)
Inductive error : Type :=
  | errors_New (msg : string)
  | fmt_Errorf_w (prefix : string) (inner : error).

Fixpoint Error (e : error) : string :=
  match e with
  | errors_New msg => msg
  | fmt_Errorf_w prefix inner => prefix +:+ Error inner
  end.

(** [errors.Unwrap]. *)
Definition Unwrap (e : error) : option error :=
  match e with
  | errors_New _ => None
  | fmt_Errorf_w _ inner => Some inner
  end.

Inductive result (T : Type) : Type :=
  | Ok (v : T)
  | Fail (e : error).
Arguments Ok {T} v.
Arguments Fail {T} e.

(** ** Commits *)

(** Modelled from the spec: the declaration of [git.Commit] is not among the
    sources.  The engine reads [AuthorName], [AuthorEmail] and [Date]; the
    spec (External interfaces) adds "a stable unique identifier" and "a
    per-path line-added/line-removed delta for every file the commit
    touched". *)
Module git.

Record FileDiff : Type := {
  Path : string;
  LinesAdded : Z;
  LinesRemoved : Z;
}.

Record Commit : Type := {
  Hash : string;
  AuthorName : string;
  AuthorEmail : string;
  Date : time.Time;
  FileDiffs : list FileDiff;
}.

End git.

(** [iter.Seq2[git.Commit, error]]: a finite sequence of pairs; an element
    whose second component is not [None] reports an error. *)
Definition Seq2 : Type := list (git.Commit * option error).

(** ** Tally modes and options *)

Definition TallyMode : Type := Z.

Definition CommitMode : TallyMode := 0.
Definition LinesMode : TallyMode := 1.
Definition FilesMode : TallyMode := 2.
Definition LastModifiedMode : TallyMode := 3.

Record TallyOpts : Type := {
  Mode : TallyMode;
  Key : git.Commit → string;
}.

Definition IsDiffMode (opts : TallyOpts) : bool :=
  bool_decide (Mode opts = FilesMode) || bool_decide (Mode opts = LinesMode).

(** The enumerated modes. *)
Definition valid_mode (mode : TallyMode) : Prop :=
  mode = CommitMode ∨ mode = LinesMode ∨ mode = FilesMode
  ∨ mode = LastModifiedMode.

(** ** Tally *)

Record Tally : Type := {
  AuthorName : string;
  AuthorEmail : string;
  Commits : Z;
  LinesAdded : Z;
  LinesRemoved : Z;
  FileCount : Z;
  LastCommitTime : time.Time;
}.

(** The zero value [Tally{}], what a lookup of an absent key yields. *)
Definition zeroTally : Tally :=
  {| AuthorName := ""; AuthorEmail := ""; Commits := 0; LinesAdded := 0;
     LinesRemoved := 0; FileCount := 0; LastCommitTime := time.zero |}.

(** [None] is the panic of the [default] branch. *)
Definition SortKey (t : Tally) (mode : TallyMode) : option Z :=
  if bool_decide (mode = CommitMode) then Some (Commits t)
  else if bool_decide (mode = FilesMode) then Some (FileCount t)
  else if bool_decide (mode = LinesMode) then
    Some (Int.add (LinesAdded t) (LinesRemoved t))
  else if bool_decide (mode = LastModifiedMode) then
    Some (time.Unix (LastCommitTime t))
  else None.

Definition Compare (a b : Tally) (mode : TallyMode) : option Z :=
  aRank ← SortKey a mode;
  bRank ← SortKey b mode;
  if aRank <? bRank then Some (-1)
  else if bRank <? aRank then Some 1
  else Some (time.Compare (LastCommitTime a) (LastCommitTime b)).

(** ** Sorting *)

(** [slices.SortedFunc] belongs to Go's standard library: it collects the
    sequence and sorts it with the comparison function, which it calls only
    when there are at least two elements.  It stands here as an insertion
    sort; a panic of the comparison function propagates. *)
Fixpoint insert_by {A : Type} (cmp : A → A → option Z) (x : A) (l : list A)
    : option (list A) :=
  match l with
  | [] => Some [x]
  | y :: l' =>
      c ← cmp x y;
      if c <=? 0 then Some (x :: y :: l')
      else l'' ← insert_by cmp x l'; Some (y :: l'')
  end.

Fixpoint SortedFunc {A : Type} (cmp : A → A → option Z) (l : list A)
    : option (list A) :=
  match l with
  | [] => Some []
  | x :: l' => s ← SortedFunc cmp l'; insert_by cmp x s
  end.

(** [maps.Values(tallies)]: the values, in the order the map is iterated. *)
Definition Values {A : Type} (m : gmap string A) : list A :=
  (map_to_list m).*2.

Definition sortTallies (tallies : gmap string Tally) (mode : TallyMode)
    : option (list Tally) :=
  SortedFunc (λ a b, c ← Compare a b mode; Some (- c)) (Values tallies).

(** ** The store of maps *)

(** A [map[string]bool] value is [nil] or a reference to a map object. *)
Definition loc : Type := positive.
Definition mapref : Type := option loc.

Abbreviation heap := (gmap loc (gmap string bool)).

(** Computations that read and write the store and may panic. *)
Definition M (A : Type) : Type := heap → option (A * heap).

#[global] Instance M_ret : MRet M := λ A a h, Some (a, h).
#[global] Instance M_bind : MBind M := λ A B f m h,
  match m h with
  | Some (a, h') => f a h'
  | None => None
  end.

Definition panic {A : Type} : M A := λ _, None.

(** A pure computation that may panic. *)
Definition lift {A : Type} (o : option A) : M A :=
  match o with
  | Some a => mret a
  | None => panic
  end.

(** The contents of the map behind a reference; a [nil] map reads as empty. *)
Definition deref (h : heap) (r : mapref) : gmap string bool :=
  match r with
  | Some l => default ∅ (h !! l)
  | None => ∅
  end.

(** [map[string]bool{}]: a new, empty map object. *)
Definition make_map : M mapref := λ h,
  let l := fresh (dom h) in Some (Some l, <[l := ∅]> h).

(** [r[k] = v]; assignment to an entry of a [nil] map panics. *)
Definition map_assign (r : mapref) (k : string) (v : bool) : M unit :=
  match r with
  | Some l => λ h, Some ((), <[l := <[k := v]> (default ∅ (h !! l))]> h)
  | None => panic
  end.

(** The keys a [range] over the map behind [r] visits. *)
Definition map_keys (r : mapref) : M (list string) := λ h,
  Some ((map_to_list (deref h r)).*1, h).

(** [len(r)]. *)
Definition map_len (r : mapref) : M Z := λ h,
  Some (Z.of_nat (size (deref h r)), h).

(** [for k, v := range m { s = body(s, k, v) }] over a map the loop does not
    write; the order of a Go map iteration is unspecified, here it is that
    of [map_fold]. *)
Definition range_map {V S : Type} (body : S → string → V → M S)
    (s : S) (m : gmap string V) : M S :=
  map_fold (λ k v acc, s' ← acc; body s' k v) (mret s) m.

(** ** Combinable partial tallies *)

Record intermediateTally : Type := {
  commitset : mapref;
  added : Z;
  removed : Z;
  lastCommitTime : time.Time;
  numTallied : Z;
}.

Definition newTally (numTallied : Z) : M intermediateTally :=
  commitset ← make_map;
  mret {| commitset := commitset; added := 0; removed := 0;
          lastCommitTime := time.zero; numTallied := numTallied |}.

Definition intermediateTally_Commits (t : intermediateTally) : M Z :=
  map_len (commitset t).

(** [for commit, _ := range b.commitset { union[commit] = true }], the
    keys being those of [b.commitset] when the loop starts. *)
Fixpoint assign_true (union : mapref) (commits : list string) : M unit :=
  match commits with
  | [] => mret ()
  | commit :: rest => _ ← map_assign union commit true; assign_true union rest
  end.

(** [union] is the receiver's own map, not a copy of it. *)
Definition Add (a b : intermediateTally) : M intermediateTally :=
  let union := commitset a in
  commits ← map_keys (commitset b);
  _ ← assign_true union commits;
  mret {| commitset := union;
          added := Int.add (added a) (added b);
          removed := Int.add (removed a) (removed b);
          lastCommitTime :=
            timeutils.Max (lastCommitTime a) (lastCommitTime b);
          numTallied := Int.add (numTallied a) (numTallied b) |}.

(** ** Author-paths tables *)

(** Modelled from the spec: the declaration of [AuthorPaths] is not among
    the sources.  [sumOverPaths] reads its fields [name], [email] and
    [paths]; the spec: "value holds the author's display name/email plus a
    mapping from file path to that path's combinable partial tally". *)
Record AuthorPaths : Type := {
  name : string;
  email : string;
  paths : gmap string intermediateTally;
}.

(** [m[k]] for a map of structs: the zero value when [k] is absent. *)
Definition index {A : Type} (zero : A) (m : gmap string A) (k : string) : A :=
  default zero (m !! k).

(** Field assignments on a [Tally] variable. *)
Definition set_AuthorName (v : string) (t : Tally) : Tally :=
  {| AuthorName := v; AuthorEmail := AuthorEmail t; Commits := Commits t;
     LinesAdded := LinesAdded t; LinesRemoved := LinesRemoved t;
     FileCount := FileCount t; LastCommitTime := LastCommitTime t |}.
Definition set_AuthorEmail (v : string) (t : Tally) : Tally :=
  {| AuthorName := AuthorName t; AuthorEmail := v; Commits := Commits t;
     LinesAdded := LinesAdded t; LinesRemoved := LinesRemoved t;
     FileCount := FileCount t; LastCommitTime := LastCommitTime t |}.
Definition set_Commits (v : Z) (t : Tally) : Tally :=
  {| AuthorName := AuthorName t; AuthorEmail := AuthorEmail t; Commits := v;
     LinesAdded := LinesAdded t; LinesRemoved := LinesRemoved t;
     FileCount := FileCount t; LastCommitTime := LastCommitTime t |}.
Definition set_LinesAdded (v : Z) (t : Tally) : Tally :=
  {| AuthorName := AuthorName t; AuthorEmail := AuthorEmail t;
     Commits := Commits t; LinesAdded := v; LinesRemoved := LinesRemoved t;
     FileCount := FileCount t; LastCommitTime := LastCommitTime t |}.
Definition set_LinesRemoved (v : Z) (t : Tally) : Tally :=
  {| AuthorName := AuthorName t; AuthorEmail := AuthorEmail t;
     Commits := Commits t; LinesAdded := LinesAdded t; LinesRemoved := v;
     FileCount := FileCount t; LastCommitTime := LastCommitTime t |}.
Definition set_FileCount (v : Z) (t : Tally) : Tally :=
  {| AuthorName := AuthorName t; AuthorEmail := AuthorEmail t;
     Commits := Commits t; LinesAdded := LinesAdded t;
     LinesRemoved := LinesRemoved t; FileCount := v;
     LastCommitTime := LastCommitTime t |}.
Definition set_LastCommitTime (v : time.Time) (t : Tally) : Tally :=
  {| AuthorName := AuthorName t; AuthorEmail := AuthorEmail t;
     Commits := Commits t; LinesAdded := LinesAdded t;
     LinesRemoved := LinesRemoved t; FileCount := FileCount t;
     LastCommitTime := v |}.

(** ** Author-level reduction *)

(** The body of the loop over [author.paths]. *)
Definition sumOverPaths_path (wtreefiles : gmap string bool)
    (allowOutsideWorktree : bool)
    (runningTally : intermediateTally) (path : string)
    (pathTally : intermediateTally) : M intermediateTally :=
  let inWTree := index false wtreefiles path in
  if inWTree || allowOutsideWorktree then Add runningTally pathTally
  else mret runningTally.

(** The body of the loop over [authors]. *)
Definition sumOverPaths_author (wtreefiles : gmap string bool)
    (allowOutsideWorktree : bool)
    (authorTallies : gmap string Tally) (key : string) (author : AuthorPaths)
    : M (gmap string Tally) :=
  let authorTally := index zeroTally authorTallies key in
  let authorTally := set_AuthorName (name author) authorTally in
  let authorTally := set_AuthorEmail (email author) authorTally in
  runningTally ← newTally 0;
  runningTally ←
    range_map (sumOverPaths_path wtreefiles allowOutsideWorktree)
      runningTally (paths author);
  commits ← intermediateTally_Commits runningTally;
  let authorTally := set_Commits commits authorTally in
  let authorTally := set_LinesAdded (added runningTally) authorTally in
  let authorTally := set_LinesRemoved (removed runningTally) authorTally in
  let authorTally := set_FileCount (numTallied runningTally) authorTally in
  let authorTally :=
    set_LastCommitTime (lastCommitTime runningTally) authorTally in
  mret (<[key := authorTally]> authorTallies).

Definition sumOverPaths (authors : gmap string AuthorPaths)
    (wtreefiles : gmap string bool) (allowOutsideWorktree : bool)
    : M (gmap string Tally) :=
  range_map (sumOverPaths_author wtreefiles allowOutsideWorktree) ∅ authors.

(** ** Ranging over a commit sequence *)

(** What the body of a [for ... range] loop does next. *)
Inductive flow (S R : Type) : Type :=
  | Continue (s : S)
  | Return (r : R).
Arguments Continue {S R} s.
Arguments Return {S R} r.

(** [for commit, err := range commits { body }] over the loop state [s].
    The second component of the result is the part of the sequence that was
    never yielded: when the body returns, the iterator is told to stop. *)
Fixpoint for_range {S R : Type}
    (body : S → git.Commit → option error → M (flow S R))
    (s : S) (commits : Seq2) : M (flow S R * Seq2) :=
  match commits with
  | [] => mret (Continue s, [])
  | (commit, err) :: rest =>
      next ← body s commit err;
      match next with
      | Continue s' => for_range body s' rest
      | Return r => mret (Return r, rest)
      end
  end.

(** [for _, x := range l { s = body(s, x) }] over a slice. *)
Fixpoint range_slice {A S : Type} (body : S → A → M S) (s : S) (l : list A)
    : M S :=
  match l with
  | [] => mret s
  | x :: rest => s' ← body s x; range_slice body s' rest
  end.

(** ** Author-paths table construction *)

(** Modelled from the spec: [tallyByPaths] is not among the sources.
    Component design 4.3: "For each commit in the input sequence, and for
    each file path the commit's diff touches: determine the author's
    identity key via the caller-supplied key function; look up or create
    that author's per-path partial for the touched path; combine into it a
    partial tally representing exactly this commit: its identifier, its
    added/removed line delta for that path, its timestamp, and a
    tallied-count of 1; record/refresh the author's display name and
    email."  The partial of a path is created with the tallied-count 1
    ("used as 1 when representing this one file path exists", 4.2) and
    keeps it, so that the "final file count equals the number of distinct
    paths, not the number of commit x path edits" (Invariants); the
    identifier joins its set, the deltas are added, the time is raised. *)
Definition tallyByPaths_diff (opts : TallyOpts) (commit : git.Commit)
    (authors : gmap string AuthorPaths) (diff : git.FileDiff)
    : M (gmap string AuthorPaths) :=
  let key := Key opts commit in
  let author :=
    index {| name := ""; email := ""; paths := ∅ |} authors key in
  pathTally ←
    match paths author !! git.Path diff with
    | Some pathTally => mret pathTally
    | None => newTally 1
    end;
  _ ← map_assign (commitset pathTally) (git.Hash commit) true;
  let pathTally :=
    {| commitset := commitset pathTally;
       added := Int.add (added pathTally) (git.LinesAdded diff);
       removed := Int.add (removed pathTally) (git.LinesRemoved diff);
       lastCommitTime :=
         timeutils.Max (lastCommitTime pathTally) (git.Date commit);
       numTallied := numTallied pathTally |} in
  mret (<[key := {| name := git.AuthorName commit;
                    email := git.AuthorEmail commit;
                    paths := <[git.Path diff := pathTally]> (paths author) |}]>
          authors).

(** Modelled from the spec: 4.3, "Failure: if the input commit sequence
    reports an error for an element, abort immediately and propagate a
    wrapped error; no partial result is returned."  The context the error is
    wrapped with is taken to be that of the loop in [tallyCommits]. *)
Definition tallyByPaths_commit (opts : TallyOpts)
    (authors : gmap string AuthorPaths) (commit : git.Commit)
    (err : option error) : M (flow (gmap string AuthorPaths) error) :=
  match err with
  | Some e => mret (Return (fmt_Errorf_w "error iterating commits: " e))
  | None =>
      authors ←
        range_slice (tallyByPaths_diff opts commit) authors
          (git.FileDiffs commit);
      mret (Continue authors)
  end.

Definition tallyByPaths_loop (commits : Seq2) (opts : TallyOpts)
    : M (flow (gmap string AuthorPaths) error * Seq2) :=
  for_range (tallyByPaths_commit opts) ∅ commits.

(** Modelled from the spec: see [tallyByPaths_diff] and
    [tallyByPaths_commit]. *)
Definition tallyByPaths (commits : Seq2) (wtreefiles : gmap string bool)
    (opts : TallyOpts) : M (result (gmap string AuthorPaths)) :=
  out ← tallyByPaths_loop commits opts;
  match out.1 with
  | Return e => mret (Fail e)
  | Continue authors => mret (Ok authors)
  end.

(** ** The sequential engine *)

(** The body of the loop of the simple strategy. *)
Definition tallyCommits_commit (opts : TallyOpts)
    (authorTallies : gmap string Tally) (commit : git.Commit)
    (err : option error) : M (flow (gmap string Tally) error) :=
  match err with
  | Some e => mret (Return (fmt_Errorf_w "error iterating commits: " e))
  | None =>
      let key := Key opts commit in
      let authorTally := index zeroTally authorTallies key in
      let authorTally := set_AuthorName (git.AuthorName commit) authorTally in
      let authorTally :=
        set_AuthorEmail (git.AuthorEmail commit) authorTally in
      let authorTally :=
        set_Commits (Int.add (Commits authorTally) 1) authorTally in
      let authorTally :=
        set_LastCommitTime
          (timeutils.Max (git.Date commit) (LastCommitTime authorTally))
          authorTally in
      mret (Continue (<[key := authorTally]> authorTallies))
  end.

Definition tallyCommits_loop (commits : Seq2) (opts : TallyOpts)
    : M (flow (gmap string Tally) error * Seq2) :=
  for_range (tallyCommits_commit opts) ∅ commits.

(** The timing of the call and its debug log line are left out. *)
Definition tallyCommits (commits : Seq2) (wtreefiles : gmap string bool)
    (allowOutsideWorktree : bool) (opts : TallyOpts)
    : M (result (gmap string Tally)) :=
  if negb (IsDiffMode opts) && allowOutsideWorktree then
    out ← tallyCommits_loop commits opts;
    match out.1 with
    | Return e => mret (Fail e)
    | Continue authorTallies => mret (Ok authorTallies)
    end
  else
    r ← tallyByPaths commits wtreefiles opts;
    match r with
    | Fail err => mret (Fail err)
    | Ok pathTallies =>
        authorTallies ←
          sumOverPaths pathTallies wtreefiles allowOutsideWorktree;
        mret (Ok authorTallies)
    end.

Definition TallyCommits (commits : Seq2) (wtreefiles : gmap string bool)
    (allowOutsideWorktree : bool) (opts : TallyOpts)
    : M (result (list Tally)) :=
  r ← tallyCommits commits wtreefiles allowOutsideWorktree opts;
  match r with
  | Fail err => mret (Fail err)
  | Ok authorTallies =>
      sorted ← lift (sortTallies authorTallies (Mode opts));
      mret (Ok sorted)
  end.

(** ** The pipelines *)

(** [TallyCommitsApplyMerge]: the three functions it returns. *)
Module TallyCommitsApplyMerge.

Definition apply (wtreeset : gmap string bool) (allowOutsideWorktree : bool)
    (opts : TallyOpts) (commits : Seq2) : M (result (gmap string Tally)) :=
  if IsDiffMode opts then mret (Fail (errors_New "unsupported tally mode"))
  else tallyCommits commits wtreeset allowOutsideWorktree opts.

(** The body of the loop over [a]. *)
Definition merge_entry (k : string) (at' : Tally)
    (union : gmap string Tally) : gmap string Tally :=
  let bt := index zeroTally union k in
  let at' := set_Commits (Int.add (Commits at') (Commits bt)) at' in
  let at' :=
    set_LastCommitTime
      (timeutils.Max (LastCommitTime at') (LastCommitTime bt)) at' in
  <[k := at']> union.

(** The result is built in [b]'s own map object; it is returned here as a
    value, and [b] is not read again by any definition below. *)
Definition merge (a b : gmap string Tally) : gmap string Tally :=
  let union := b in
  map_fold merge_entry union a.

Definition finalize (opts : TallyOpts) (tallies : gmap string Tally)
    : option (list Tally) :=
  sortTallies tallies (Mode opts).

End TallyCommitsApplyMerge.

(** [TallyCommitsDiffApplyMerge]: the three functions it returns.  The
    method [AuthorPaths.Union] that its [merge] calls is not among the
    sources; [merge] takes it as the parameter [Union]. *)
Module TallyCommitsDiffApplyMerge.

Definition apply (wtreeset : gmap string bool) (opts : TallyOpts)
    (commits : Seq2) : M (result (gmap string AuthorPaths)) :=
  tallyByPaths commits wtreeset opts.

(** The body of the loop over [a].  [union] and [b] are one map object, so
    that [b[key]] reads what the loop has made of [union] so far. *)
Definition merge_entry (Union : AuthorPaths → AuthorPaths → M AuthorPaths)
    (union : gmap string AuthorPaths) (key : string) (aAuthor : AuthorPaths)
    : M (gmap string AuthorPaths) :=
  match union !! key with
  | Some bAuthor =>
      aAuthor ← Union aAuthor bAuthor;
      mret (<[key := aAuthor]> union)
  | None => mret (<[key := aAuthor]> union)
  end.

Definition merge (Union : AuthorPaths → AuthorPaths → M AuthorPaths)
    (a b : gmap string AuthorPaths) : M (gmap string AuthorPaths) :=
  let union := b in
  range_map (merge_entry Union) union a.

Definition finalize (wtreeset : gmap string bool)
    (allowOutsideWorktree : bool) (opts : TallyOpts)
    (authors : gmap string AuthorPaths) : M (list Tally) :=
  tallies ← sumOverPaths authors wtreeset allowOutsideWorktree;
  lift (sortTallies tallies (Mode opts)).

End TallyCommitsDiffApplyMerge.

(** * Vocabulary of the properties

    The notions the statements below are written with, and the sample
    inputs they are instantiated at. *)

(** ** Ranking *)

(** [a] may stand before [b] in a ranking by [mode]: its metric is larger,
    or the metrics are equal and its last commit is not earlier. *)
Definition outranks (mode : TallyMode) (a b : Tally) : Prop :=
  ∃ ka kb, SortKey a mode = Some ka ∧ SortKey b mode = Some kb ∧
           (kb < ka ∨ (ka = kb ∧ LastCommitTime b ≤ LastCommitTime a)).

(** Three tallies, two of them with the same number of commits. *)
Definition ex_ranked : gmap string Tally :=
  {[ "ada@example.org" :=
       {| AuthorName := "Ada"; AuthorEmail := "ada@example.org";
          Commits := 4; LinesAdded := 120; LinesRemoved := 7; FileCount := 3;
          LastCommitTime := 1700000000 * 10 ^ 9 |};
     "grace@example.org" :=
       {| AuthorName := "Grace"; AuthorEmail := "grace@example.org";
          Commits := 9; LinesAdded := 40; LinesRemoved := 2; FileCount := 5;
          LastCommitTime := 1600000000 * 10 ^ 9 |};
     "edsger@example.org" :=
       {| AuthorName := "Edsger"; AuthorEmail := "edsger@example.org";
          Commits := 4; LinesAdded := 11; LinesRemoved := 0; FileCount := 1;
          LastCommitTime := 1800000000 * 10 ^ 9 |} ]}.

(** ** Partial tallies as values *)

(** The commit identifiers of a partial tally: the keys of its map. *)
Definition commits_in (h : heap) (t : intermediateTally) : gset string :=
  dom (deref h (commitset t)).

(** A partial tally as the value the store gives it. *)
Record partial : Type := {
  p_commits : gset string;
  p_added : Z;
  p_removed : Z;
  p_lastCommitTime : time.Time;
  p_numTallied : Z;
}.

Definition view (h : heap) (t : intermediateTally) : partial :=
  {| p_commits := commits_in h t; p_added := added t;
     p_removed := removed t; p_lastCommitTime := lastCommitTime t;
     p_numTallied := numTallied t |}.

(** The combination rule of the data model: union of the identifier sets,
    sums of the counts, maximum of the timestamps. *)
Definition combine (x y : partial) : partial :=
  {| p_commits := p_commits x ∪ p_commits y;
     p_added := Int.add (p_added x) (p_added y);
     p_removed := Int.add (p_removed x) (p_removed y);
     p_lastCommitTime :=
       timeutils.Max (p_lastCommitTime x) (p_lastCommitTime y);
     p_numTallied := Int.add (p_numTallied x) (p_numTallied y) |}.

(** A receiver with one map, an argument with another that holds a commit. *)
Definition pure_a : intermediateTally :=
  {| commitset := Some 1%positive; added := 0; removed := 0;
     lastCommitTime := time.zero; numTallied := 0 |}.
Definition pure_b : intermediateTally :=
  {| commitset := Some 2%positive; added := 3; removed := 1;
     lastCommitTime := 1700000000 * 10 ^ 9; numTallied := 1 |}.
Definition pure_h : heap :=
  {[ 1%positive := ∅; 2%positive := {[ "4f2a9c1" := true ]} ]}.

(** [a.Add(b)] is pure at [a], [b], [h]: it leaves the sets of both operands
    as they were and returns a set of its own. *)
Definition Add_pure_at (a b : intermediateTally) (h : heap) : Prop :=
  ∀ r h', Add a b h = Some (r, h') →
    deref h' (commitset a) = deref h (commitset a) ∧
    deref h' (commitset b) = deref h (commitset b) ∧
    commitset r ≠ commitset a ∧ commitset r ≠ commitset b.

(** ** Reduction over the counted paths *)

(** Whether [sumOverPaths] counts a path: it is in the working-tree filter
    set, or the override flag is set. *)
Definition counted (wtreefiles : gmap string bool)
    (allowOutsideWorktree : bool) (path : string) : bool :=
  index false wtreefiles path || allowOutsideWorktree.

(** The entries of a path map that [sumOverPaths] counts. *)
Definition qualifying (wtreefiles : gmap string bool)
    (allowOutsideWorktree : bool) (ps : gmap string intermediateTally)
    : gmap string intermediateTally :=
  filter (λ pt, counted wtreefiles allowOutsideWorktree pt.1 = true) ps.

(** Sum of a field, latest time and union of the identifier sets over the
    entries of a path map. *)
Definition sum_of (f : intermediateTally → Z)
    (ps : gmap string intermediateTally) : Z :=
  map_fold (λ _ t acc, f t + acc) 0 ps.

Definition latest_of (ps : gmap string intermediateTally) : time.Time :=
  map_fold (λ _ t acc, Z.max (lastCommitTime t) acc) time.zero ps.

Definition commits_of (h : heap) (ps : gmap string intermediateTally)
    : gset string :=
  map_fold (λ _ t acc, commits_in h t ∪ acc) ∅ ps.

(** The tally of an author as a reduction over the counted paths only. *)
Definition author_tally (h : heap) (wtreefiles : gmap string bool)
    (allowOutsideWorktree : bool) (a : AuthorPaths) : Tally :=
  let ps := qualifying wtreefiles allowOutsideWorktree (paths a) in
  {| AuthorName := name a;
     AuthorEmail := email a;
     Commits := Z.of_nat (size (commits_of h ps));
     LinesAdded := Int.wrap64 (sum_of added ps);
     LinesRemoved := Int.wrap64 (sum_of removed ps);
     FileCount := Int.wrap64 (sum_of numTallied ps);
     LastCommitTime := latest_of ps |}.

(** Every map a table refers to exists in the store. *)
Definition allocated (h : heap) (ps : gmap string intermediateTally) : Prop :=
  ∀ p t l, ps !! p = Some t → commitset t = Some l → is_Some (h !! l).

Definition table_allocated (h : heap) (authors : gmap string AuthorPaths)
    : Prop :=
  ∀ k a, authors !! k = Some a → allocated h (paths a).

(** A check of [table_allocated] that can be run. *)
Definition set_exists (h : heap) (t : intermediateTally) : Prop :=
  commitset t = None ∨ is_Some (commitset t ≫= (h !!.)).

(** An example table: an author with two files in the tree, touched by the
    same commit, and one file that is no longer there. *)
Definition ex_x : intermediateTally :=
  {| commitset := Some 1%positive; added := 10; removed := 0;
     lastCommitTime := 1700000000 * 10 ^ 9; numTallied := 1 |}.
Definition ex_y : intermediateTally :=
  {| commitset := Some 2%positive; added := 5; removed := 2;
     lastCommitTime := 1700000000 * 10 ^ 9; numTallied := 1 |}.
Definition ex_z : intermediateTally :=
  {| commitset := Some 3%positive; added := 3; removed := 0;
     lastCommitTime := 1800000000 * 10 ^ 9; numTallied := 1 |}.
Definition ex_heap : heap :=
  {[ 1%positive := {[ "4f2a9c1" := true ]};
     2%positive := {[ "4f2a9c1" := true ]};
     3%positive := {[ "77b03de" := true ]} ]}.
Definition ex_author : AuthorPaths :=
  {| name := "Ada"; email := "ada@example.org";
     paths := {[ "x.go" := ex_x; "y.go" := ex_y; "z.go" := ex_z ]} |}.
Definition ex_authors : gmap string AuthorPaths :=
  {[ "ada@example.org" := ex_author ]}.
Definition ex_wtree : gmap string bool :=
  {[ "x.go" := true; "y.go" := true ]}.

(** The store in which commit [c] never happened: [c] is taken out of every
    identifier set. *)
Definition erase_commit (c : string) (h : heap) : heap := delete c <$> h.

(** The number of entries of a path map that commit [c] touched. *)
Definition files_touched (h : heap) (c : string)
    (ps : gmap string intermediateTally) : nat :=
  size (filter (λ pt, c ∈ commits_in h pt.2) ps).

(** ** The simple strategy, commit by commit *)

(** What one turn of the loop does to a tally and to the map. *)
Definition bump (commit : git.Commit) (authorTally : Tally) : Tally :=
  set_LastCommitTime
    (timeutils.Max (git.Date commit) (LastCommitTime authorTally))
    (set_Commits (Int.add (Commits authorTally) 1)
       (set_AuthorEmail (git.AuthorEmail commit)
          (set_AuthorName (git.AuthorName commit) authorTally))).

Definition tally_step (opts : TallyOpts) (authorTallies : gmap string Tally)
    (commit : git.Commit) : gmap string Tally :=
  let key := Key opts commit in
  <[key := bump commit (index zeroTally authorTallies key)]> authorTallies.

(** The commits of a sequence that the key function gives to [key]. *)
Definition commits_by (opts : TallyOpts) (key : string)
    (cs : list git.Commit) : list git.Commit :=
  filter (λ c, Key opts c = key) cs.

(** The tally of an author from that author's commits, in order. *)
Definition tally_of (cs : list git.Commit) : Tally :=
  foldl (λ t c, bump c t) zeroTally cs.

(** A sequence none of whose elements reports an error. *)
Definition error_free (commits : Seq2) : Prop :=
  Forall (λ x, x.2 = None) commits.

(** A sequence in which one commit is delivered twice. *)
Definition ex_c1 : git.Commit :=
  {| git.Hash := "4f2a9c1"; git.AuthorName := "Ada";
     git.AuthorEmail := "ada@example.org";
     git.Date := 1700000000 * 10 ^ 9;
     git.FileDiffs :=
       [ {| git.Path := "x.go"; git.LinesAdded := 10; git.LinesRemoved := 0 |};
         {| git.Path := "y.go"; git.LinesAdded := 5; git.LinesRemoved := 2 |} ]
  |}.
Definition ex_c2 : git.Commit :=
  {| git.Hash := "77b03de"; git.AuthorName := "Grace";
     git.AuthorEmail := "grace@example.org";
     git.Date := 1800000000 * 10 ^ 9;
     git.FileDiffs :=
       [ {| git.Path := "z.go"; git.LinesAdded := 3; git.LinesRemoved := 0 |} ]
  |}.
Definition ex_twice : Seq2 := [(ex_c1, None); (ex_c2, None); (ex_c1, None)].
Definition by_email (mode : TallyMode) : TallyOpts :=
  {| Mode := mode; Key := git.AuthorEmail |}.

Definition ex_twice_sorted : list Tally :=
  [ {| AuthorName := "Ada"; AuthorEmail := "ada@example.org";
       Commits := 2; LinesAdded := 0; LinesRemoved := 0;
       FileCount := 0; LastCommitTime := 1700000000 * 10 ^ 9 |};
    {| AuthorName := "Grace"; AuthorEmail := "grace@example.org";
       Commits := 1; LinesAdded := 0; LinesRemoved := 0;
       FileCount := 0; LastCommitTime := 1800000000 * 10 ^ 9 |} ].

(** ** Sequences that report an error *)

(** Every partial of a table has a map. *)
Definition sets_made (authors : gmap string AuthorPaths) : Prop :=
  ∀ k a p t, authors !! k = Some a → paths a !! p = Some t →
             is_Some (commitset t).

(** The loop of the strategy that the configuration selects. *)
Definition engine_loop (commits : Seq2) (allowOutsideWorktree : bool)
    (opts : TallyOpts) : M (option error * Seq2) :=
  if negb (IsDiffMode opts) && allowOutsideWorktree then
    out ← tallyCommits_loop commits opts;
    mret (if out.1 is Return e then Some e else None, out.2)
  else
    out ← tallyByPaths_loop commits opts;
    mret (if out.1 is Return e then Some e else None, out.2).

Definition ex_failing : Seq2 :=
  [(ex_c1, None); (ex_c2, Some (errors_New "unexpected EOF")); (ex_c1, None)].

(** ** Merging maps of tallies *)

(** What [merge] stores at a key that both maps have. *)
Definition merged (at' bt : Tally) : Tally :=
  set_LastCommitTime (timeutils.Max (LastCommitTime at') (LastCommitTime bt))
    (set_Commits (Int.add (Commits at') (Commits bt)) at').

(** The fields [merge] takes from its first argument alone. *)
Definition same_identity (x y : Tally) : Prop :=
  AuthorName x = AuthorName y ∧ AuthorEmail x = AuthorEmail y ∧
  LinesAdded x = LinesAdded y ∧ LinesRemoved x = LinesRemoved y ∧
  FileCount x = FileCount y.

(** A map of tallies as a Go program can hold it after [apply]: counts that
    fit an [int], times not before the zero time. *)
Definition partial_ok (m : gmap string Tally) : Prop :=
  ∀ k t, m !! k = Some t →
         Int.in_range (Commits t) ∧ time.zero ≤ LastCommitTime t.

(** Two shards whose commits have the same author key, the e-mail address,
    under two spellings of the author's name. *)
Definition ex_c3 : git.Commit :=
  {| git.Hash := "c0ffee1"; git.AuthorName := "Ada Lovelace";
     git.AuthorEmail := "ada@example.org";
     git.Date := 1750000000 * 10 ^ 9;
     git.FileDiffs :=
       [ {| git.Path := "x.go"; git.LinesAdded := 1; git.LinesRemoved := 1 |} ]
  |}.
Definition ex_shard1 : Seq2 := [(ex_c1, None)].
Definition ex_shard2 : Seq2 := [(ex_c3, None)].
Definition ex_partial1 : gmap string Tally :=
  {[ "ada@example.org" :=
       {| AuthorName := "Ada"; AuthorEmail := "ada@example.org";
          Commits := 1; LinesAdded := 0; LinesRemoved := 0; FileCount := 0;
          LastCommitTime := 1700000000 * 10 ^ 9 |} ]}.
Definition ex_partial2 : gmap string Tally :=
  {[ "ada@example.org" :=
       {| AuthorName := "Ada Lovelace"; AuthorEmail := "ada@example.org";
          Commits := 1; LinesAdded := 0; LinesRemoved := 0; FileCount := 0;
          LastCommitTime := 1750000000 * 10 ^ 9 |} ]}.

(** ** The scheduler *)

(** The external scheduler: it gives each shard to [apply] and combines the
    partials with [merge], in some order and tree shape, then calls
    [finalize] once.  A failed shard fails the reduction. *)
Inductive reduction : Type :=
  | Shard (commits : Seq2)
  | Merge (l r : reduction).


Fixpoint reduce (wtreeset : gmap string bool) (allowOutsideWorktree : bool)
    (opts : TallyOpts) (t : reduction) : M (result (gmap string Tally)) :=
  match t with
  | Shard commits =>
      TallyCommitsApplyMerge.apply wtreeset allowOutsideWorktree opts commits
  | Merge l r =>
      a ← reduce wtreeset allowOutsideWorktree opts l;
      b ← reduce wtreeset allowOutsideWorktree opts r;
      match a, b with
      | Ok a, Ok b => mret (Ok (TallyCommitsApplyMerge.merge a b))
      | Fail e, _ => mret (Fail e)
      | _, Fail e => mret (Fail e)
      end
  end.

Definition run_pipeline (wtreeset : gmap string bool)
    (allowOutsideWorktree : bool) (opts : TallyOpts) (t : reduction)
    : M (result (list Tally)) :=
  r ← reduce wtreeset allowOutsideWorktree opts t;
  match r with
  | Fail e => mret (Fail e)
  | Ok tallies =>
      sorted ← lift (TallyCommitsApplyMerge.finalize opts tallies);
      mret (Ok sorted)
  end.



(** The tally of an author as a value of the author's commits, whatever
    their order is. *)
Definition latest (cs : list git.Commit) : time.Time :=
  foldr (λ c acc, Z.max (git.Date c) acc) time.zero cs.




(** ** Further samples and notions *)

(** The three tallies of [ex_ranked]. *)
Definition ex_ada : Tally :=
  {| AuthorName := "Ada"; AuthorEmail := "ada@example.org";
     Commits := 4; LinesAdded := 120; LinesRemoved := 7; FileCount := 3;
     LastCommitTime := 1700000000 * 10 ^ 9 |}.
Definition ex_edsger : Tally :=
  {| AuthorName := "Edsger"; AuthorEmail := "edsger@example.org";
     Commits := 4; LinesAdded := 11; LinesRemoved := 0; FileCount := 1;
     LastCommitTime := 1800000000 * 10 ^ 9 |}.
Definition ex_grace : Tally :=
  {| AuthorName := "Grace"; AuthorEmail := "grace@example.org";
     Commits := 9; LinesAdded := 40; LinesRemoved := 2; FileCount := 5;
     LastCommitTime := 1600000000 * 10 ^ 9 |}.

(** The commits counted by a list of tallies, all authors together. *)
Definition total_commits (tallies : list Tally) : Z :=
  foldr Z.add 0 (Commits <$> tallies).

(** The author keys of a sequence of commits. *)
Definition author_keys (opts : TallyOpts) (cs : list git.Commit)
    : gset string :=
  list_to_set (Key opts <$> cs).

(** * Properties *)

(** ** Machine integers *)

Module IntFacts.

Lemma wrap64_in_range z : Int.in_range (Int.wrap64 z).
Proof.
  unfold Int.in_range, Int.wrap64.
  pose proof (Z.mod_pos_bound (z + 2 ^ 63) (2 ^ 64)). lia.
Qed.

Lemma wrap64_id z : Int.in_range z → Int.wrap64 z = z.
Proof.
  unfold Int.in_range, Int.wrap64. intros Hz.
  rewrite Z.mod_small; lia.
Qed.

(** Wrapping an operand first does not change a wrapped sum. *)
Lemma wrap64_add_l a b : Int.wrap64 (Int.wrap64 a + b) = Int.wrap64 (a + b).
Proof.
  unfold Int.wrap64.
  replace ((a + 2 ^ 63) `mod` 2 ^ 64 - 2 ^ 63 + b + 2 ^ 63)
    with ((a + 2 ^ 63) `mod` 2 ^ 64 + b) by lia.
  rewrite Zplus_mod_idemp_l. f_equal. f_equal. lia.
Qed.

Lemma wrap64_add_r a b : Int.wrap64 (a + Int.wrap64 b) = Int.wrap64 (a + b).
Proof. rewrite (Z.add_comm a), wrap64_add_l. f_equal. lia. Qed.

Lemma wrap64_idemp z : Int.wrap64 (Int.wrap64 z) = Int.wrap64 z.
Proof. apply wrap64_id, wrap64_in_range. Qed.

Lemma add_comm a b : Int.add a b = Int.add b a.
Proof. unfold Int.add. f_equal. lia. Qed.

Lemma add_assoc a b c : Int.add (Int.add a b) c = Int.add a (Int.add b c).
Proof.
  unfold Int.add. rewrite wrap64_add_l, wrap64_add_r. f_equal. lia.
Qed.

Lemma add_0_r a : Int.add a 0 = Int.wrap64 a.
Proof. unfold Int.add. f_equal. lia. Qed.

Lemma add_0_l a : Int.add 0 a = Int.wrap64 a.
Proof. unfold Int.add. f_equal. Qed.

Lemma add_wrap64_l a b : Int.add (Int.wrap64 a) b = Int.add a b.
Proof. apply wrap64_add_l. Qed.

Lemma add_wrap64_r a b : Int.add a (Int.wrap64 b) = Int.add a b.
Proof. apply wrap64_add_r. Qed.

End IntFacts.

(** ** Ranking *)

Section sorting.
Context {A : Type} (cmp : A → A → option Z) (R : relation A).
Hypothesis cmp_returns : ∀ x y, is_Some (cmp x y).
Hypothesis cmp_le : ∀ x y c, cmp x y = Some c → c ≤ 0 → R x y.
Hypothesis cmp_gt : ∀ x y c, cmp x y = Some c → 0 < c → R y x.
Hypothesis R_trans : Transitive R.

Lemma insert_by_sorted x l :
  StronglySorted R l →
  ∃ l', insert_by cmp x l = Some l' ∧ l' ≡ₚ x :: l ∧ StronglySorted R l'.
Proof.
  induction l as [|y l IH]; intros Hl; simpl.
  - exists [x]. repeat split; [done|]. repeat constructor.
  - destruct (cmp_returns x y) as [c Hc]. rewrite Hc. simpl.
    apply StronglySorted_cons in Hl as [Hy Hl].
    destruct (Z.leb_spec c 0) as [Hle|Hgt].
    + exists (x :: y :: l). repeat split; [done|].
      pose proof (cmp_le _ _ _ Hc Hle) as Hxy.
      apply StronglySorted_cons. split.
      * constructor; [done|]. eapply Forall_impl; [exact Hy|].
        intros z Hz. by transitivity y.
      * by apply StronglySorted_cons.
    + destruct (IH Hl) as (l' & -> & Hp & Hs). simpl.
      exists (y :: l'). repeat split.
      * rewrite Hp. apply Permutation_swap.
      * apply StronglySorted_cons. split; [|done].
        rewrite Hp. constructor; [|done]. by eapply cmp_gt.
Qed.

Lemma SortedFunc_sorted l :
  ∃ l', SortedFunc cmp l = Some l' ∧ l' ≡ₚ l ∧ StronglySorted R l'.
Proof.
  induction l as [|x l IH]; simpl.
  - exists []. repeat split; [done|]. constructor.
  - destruct IH as (s & -> & Hp & Hs). simpl.
    destruct (insert_by_sorted x s Hs) as (l' & -> & Hp' & Hs').
    exists l'. repeat split; [|done]. by rewrite Hp', Hp.
Qed.
End sorting.

Lemma StronglySorted_lookup {A : Type} (R : relation A) (l : list A) i j a b :
  StronglySorted R l → (i < j)%nat →
  l !! i = Some a → l !! j = Some b → R a b.
Proof.
  intros Hl. revert i j. induction Hl as [|x l Hl IH Hx]; intros i j Hij Hi Hj.
  - done.
  - destruct j as [|j]; [lia|]. simpl in Hj. destruct i as [|i].
    + simpl in Hi. injection Hi as <-.
      rewrite Forall_forall in Hx. apply Hx. by eapply list_elem_of_lookup_2.
    + simpl in Hi. apply (IH i j); [lia|done..].
Qed.

Lemma SortKey_valid t mode : valid_mode mode → is_Some (SortKey t mode).
Proof.
  unfold SortKey, CommitMode, LinesMode, FilesMode, LastModifiedMode.
  intros [-> | [-> | [-> | ->]]]; repeat case_bool_decide; eauto; done.
Qed.

Lemma SortKey_panics t mode : ¬ valid_mode mode → SortKey t mode = None.
Proof.
  unfold SortKey, valid_mode. intros Hm.
  repeat case_bool_decide; naive_solver.
Qed.

Lemma Compare_valid a b mode : valid_mode mode → is_Some (Compare a b mode).
Proof.
  intros Hm. unfold Compare.
  destruct (SortKey_valid a mode Hm) as [ka ->].
  destruct (SortKey_valid b mode Hm) as [kb ->]. simpl.
  repeat case_match; eauto.
Qed.

Lemma Compare_outranks a b mode c :
  Compare a b mode = Some c → (- c ≤ 0 → outranks mode a b) ∧
                              (0 < - c → outranks mode b a).
Proof.
  unfold Compare, outranks, time.Compare.
  destruct (SortKey a mode) as [ka|]; [|done].
  destruct (SortKey b mode) as [kb|]; [|done]. simpl.
  destruct (Z.ltb_spec ka kb); [|destruct (Z.ltb_spec kb ka)].
  - intros [= <-]. split; [lia|]. intros _. exists kb, ka. eauto.
  - intros [= <-]. split; [|lia]. intros _. exists ka, kb. eauto.
  - assert (ka = kb) as -> by lia.
    destruct (Z.ltb_spec (LastCommitTime a) (LastCommitTime b));
      [|destruct (Z.ltb_spec (LastCommitTime b) (LastCommitTime a))];
      intros [= <-]; (split; [intros ?|intros ?]); try lia;
      exists kb, kb; repeat split; try done; right; split; try done; lia.
Qed.

#[local] Instance outranks_trans mode : Transitive (outranks mode).
Proof.
  intros a b c (ka & kb & Ha & Hb & H1) (kb' & kc & Hb' & Hc & H2).
  rewrite Hb in Hb'. injection Hb' as <-.
  exists ka, kc. repeat split; [done..|]. lia.
Qed.

Lemma sortTallies_sorted tallies mode :
  valid_mode mode →
  ∃ sorted, sortTallies tallies mode = Some sorted ∧
            sorted ≡ₚ Values tallies ∧
            StronglySorted (outranks mode) sorted.
Proof.
  intros Hm. unfold sortTallies.
  apply SortedFunc_sorted.
  - intros x y. destruct (Compare_valid x y mode Hm) as [c ->]. by eexists.
  - intros x y c Hc Hle. destruct (Compare x y mode) as [c'|] eqn:E; [|done].
    simpl in Hc. injection Hc as <-. by apply (Compare_outranks _ _ _ _ E).
  - intros x y c Hc Hgt. destruct (Compare x y mode) as [c'|] eqn:E; [|done].
    simpl in Hc. injection Hc as <-. by apply (Compare_outranks _ _ _ _ E).
  - apply _.
Qed.

(** C6.  For every map of tallies and every enumerated mode, [sortTallies]
    returns the map's values in an order that is non-increasing by
    [SortKey]; among entries with equal [SortKey] it is non-increasing by
    [LastCommitTime], so that a tally with a strictly later last commit
    never stands below an equal-metric tally with an earlier one. *)
Theorem sortTallies_ranking_order (tallies : gmap string Tally)
    (mode : TallyMode) (Hmode : valid_mode mode) :
  ∃ sorted,
    sortTallies tallies mode = Some sorted ∧
    sorted ≡ₚ Values tallies ∧
    ∀ (i j : nat) (a b : Tally),
      (i < j)%nat → sorted !! i = Some a → sorted !! j = Some b →
      ∃ ka kb,
        SortKey a mode = Some ka ∧ SortKey b mode = Some kb ∧
        kb ≤ ka ∧
        (ka = kb → LastCommitTime b ≤ LastCommitTime a) ∧
        (ka = kb → ¬ LastCommitTime a < LastCommitTime b).
Proof.
  destruct (sortTallies_sorted tallies mode Hmode) as (sorted & Hs & Hp & Hss).
  exists sorted. repeat split; [done..|].
  intros i j a b Hij Hi Hj.
  destruct (StronglySorted_lookup _ _ _ _ _ _ Hss Hij Hi Hj)
    as (ka & kb & Ha & Hb & Hk).
  exists ka, kb. repeat split; [done..|lia|lia|lia].
Qed.

Lemma sortTallies_ranking_order_witness :
  valid_mode CommitMode ∧
  ∃ sorted,
    sortTallies ex_ranked CommitMode = Some sorted ∧
    sorted ≡ₚ Values ex_ranked ∧
    ∀ (i j : nat) (a b : Tally),
      (i < j)%nat → sorted !! i = Some a → sorted !! j = Some b →
      ∃ ka kb,
        SortKey a CommitMode = Some ka ∧ SortKey b CommitMode = Some kb ∧
        kb ≤ ka ∧
        (ka = kb → LastCommitTime b ≤ LastCommitTime a) ∧
        (ka = kb → ¬ LastCommitTime a < LastCommitTime b).
Proof.
  assert (valid_mode CommitMode) as Hmode by (left; reflexivity).
  split; [exact Hmode|].
  exact (sortTallies_ranking_order ex_ranked CommitMode Hmode).
Defined.

(** The ranking of the example: most commits first, the later of the two
    equal ones before the earlier. *)
Example sortTallies_example :
  sortTallies ex_ranked CommitMode
  = Some [ {| AuthorName := "Grace"; AuthorEmail := "grace@example.org";
              Commits := 9; LinesAdded := 40; LinesRemoved := 2;
              FileCount := 5; LastCommitTime := 1600000000 * 10 ^ 9 |};
           {| AuthorName := "Edsger"; AuthorEmail := "edsger@example.org";
              Commits := 4; LinesAdded := 11; LinesRemoved := 0;
              FileCount := 1; LastCommitTime := 1800000000 * 10 ^ 9 |};
           {| AuthorName := "Ada"; AuthorEmail := "ada@example.org";
              Commits := 4; LinesAdded := 120; LinesRemoved := 7;
              FileCount := 3; LastCommitTime := 1700000000 * 10 ^ 9 |} ].
Proof. by vm_compute. Qed.

(** ** The store *)

Ltac munfold :=
  unfold mbind, M_bind, mret, M_ret, lift, panic in *.

Lemma deref_insert_eq (h : heap) l m : deref (<[l := m]> h) (Some l) = m.
Proof. simpl. by rewrite lookup_insert_eq. Qed.

Lemma deref_insert_ne (h : heap) l m r :
  r ≠ Some l → deref (<[l := m]> h) r = deref h r.
Proof.
  destruct r as [l'|]; [|done]. intros Hne. simpl.
  rewrite lookup_insert_ne; [done|congruence].
Qed.

Lemma assign_true_Some l commits (h : heap) :
  ∃ h', assign_true (Some l) commits h = Some ((), h') ∧
        (∀ l', l' ≠ l → h' !! l' = h !! l') ∧
        (∀ l', is_Some (h !! l') → is_Some (h' !! l')) ∧
        dom (deref h' (Some l))
          = dom (deref h (Some l)) ∪ list_to_set commits.
Proof.
  revert h. induction commits as [|c commits IH]; intros h; simpl.
  - exists h. munfold. split_and!; [done..|]. set_solver.
  - munfold. simpl.
    destruct (IH (<[l := <[c := true]> (default ∅ (h !! l))]> h))
      as (h' & -> & Hframe & Hdom & Hset).
    exists h'. split_and!; [done|..].
    + intros l' Hl'. rewrite Hframe by done. by rewrite lookup_insert_ne.
    + intros l' Hl'. apply Hdom.
      destruct (decide (l = l')) as [->|];
        [rewrite lookup_insert_eq|rewrite lookup_insert_ne]; done.
    + simpl in Hset |- *. rewrite Hset, lookup_insert_eq. simpl.
      rewrite dom_insert_L. set_solver.
Qed.

Lemma assign_true_nil_map commits (h : heap) :
  assign_true None commits h = if commits is [] then Some ((), h) else None.
Proof. by destruct commits. Qed.

Lemma map_keys_set (m : gmap string bool) :
  list_to_set (map_to_list m).*1 =@{gset string} dom m.
Proof.
  apply set_eq. intros k. rewrite elem_of_list_to_set, elem_of_dom.
  rewrite list_elem_of_fmap. split.
  - intros ([k' v] & -> & Hin). apply elem_of_map_to_list in Hin. by eexists.
  - intros [v Hv]. exists (k, v). split; [done|]. by apply elem_of_map_to_list.
Qed.

(** What [Add] does when the receiver's map exists: it returns the sums and
    the maximum, and writes the union into the receiver's own map, which the
    result shares; no other map is written. *)
Lemma Add_Some (a b : intermediateTally) l (h : heap) :
  commitset a = Some l →
  ∃ h',
    Add a b h
      = Some ({| commitset := Some l;
                 added := Int.add (added a) (added b);
                 removed := Int.add (removed a) (removed b);
                 lastCommitTime :=
                   timeutils.Max (lastCommitTime a) (lastCommitTime b);
                 numTallied := Int.add (numTallied a) (numTallied b) |}, h') ∧
    (∀ l', l' ≠ l → h' !! l' = h !! l') ∧
    (∀ l', is_Some (h !! l') → is_Some (h' !! l')) ∧
    dom (deref h' (Some l)) = commits_in h a ∪ commits_in h b.
Proof.
  intros Ha. unfold Add, map_keys. rewrite Ha. munfold.
  destruct (assign_true_Some l (map_to_list (deref h (commitset b))).*1 h)
    as (h' & -> & Hframe & Hdom & Hset).
  exists h'. repeat split; [done..|].
  rewrite Hset, map_keys_set. unfold commits_in. by rewrite Ha.
Qed.

(** With a [nil] receiver map, [Add] panics as soon as the argument has a
    commit. *)
Lemma Add_nil (a b : intermediateTally) (h : heap) :
  commitset a = None → commits_in h b ≠ ∅ → Add a b h = None.
Proof.
  intros Ha Hb. unfold Add, map_keys. rewrite Ha. munfold.
  rewrite assign_true_nil_map.
  destruct ((map_to_list (deref h (commitset b))).*1) as [|k ks] eqn:E; [|done].
  exfalso. apply Hb. unfold commits_in. rewrite <- map_keys_set, E. done.
Qed.

(** The identifier set of any partial after [Add]: the union if it shares
    the receiver's map, what it was otherwise. *)
Lemma Add_commits_in (a b t : intermediateTally) l (h : heap) r h' :
  commitset a = Some l → Add a b h = Some (r, h') →
  commits_in h' t
    = if decide (commitset t = Some l)
      then commits_in h a ∪ commits_in h b else commits_in h t.
Proof.
  intros Ha Hadd. destruct (Add_Some a b l h Ha) as (h'' & E & Hf & _ & Hd).
  rewrite E in Hadd. injection Hadd as <- <-.
  case_decide as Ht.
  - unfold commits_in at 1. by rewrite Ht.
  - unfold commits_in. destruct (commitset t) as [l'|]; [|done]. simpl.
    rewrite Hf; [done|congruence].
Qed.

Lemma Add_view (a b : intermediateTally) l (h : heap) r h' :
  commitset a = Some l → Add a b h = Some (r, h') →
  commitset r = Some l ∧ view h' r = combine (view h a) (view h b).
Proof.
  intros Ha Hadd. pose proof (Add_commits_in a b r l h r h' Ha Hadd) as Hc.
  destruct (Add_Some a b l h Ha) as (h'' & E & _).
  rewrite E in Hadd. injection Hadd as <- <-. split; [done|].
  unfold view, combine. simpl. f_equal. rewrite Hc. simpl.
  by rewrite decide_True.
Qed.

Lemma Max_comm a b : timeutils.Max a b = timeutils.Max b a.
Proof. unfold timeutils.Max. lia. Qed.

Lemma Max_assoc a b c :
  timeutils.Max (timeutils.Max a b) c = timeutils.Max a (timeutils.Max b c).
Proof. unfold timeutils.Max. lia. Qed.

Lemma combine_comm x y : combine x y = combine y x.
Proof.
  unfold combine. f_equal; auto using IntFacts.add_comm, Max_comm.
  set_solver.
Qed.

Lemma combine_assoc x y z :
  combine (combine x y) z = combine x (combine y z).
Proof.
  unfold combine. simpl. f_equal; auto using IntFacts.add_assoc, Max_assoc.
  set_solver.
Qed.

Lemma partial_eq (p q : partial) :
  p_commits p = p_commits q → p_added p = p_added q →
  p_removed p = p_removed q → p_lastCommitTime p = p_lastCommitTime q →
  p_numTallied p = p_numTallied q → p = q.
Proof. destruct p, q. simpl. by intros -> -> -> -> ->. Qed.

Lemma Add_returns (a b : intermediateTally) l (h : heap) :
  commitset a = Some l →
  ∃ r h', Add a b h = Some (r, h') ∧ commitset r = Some l.
Proof.
  intros Ha. destruct (Add_Some a b l h Ha) as (h' & E & _). by eexists _, h'.
Qed.

(** [x.Add(y)] and [y.Add(x)], run from the same store, return the same
    value. *)
Lemma Add_comm (x y : intermediateTally) lx ly (h : heap) :
  commitset x = Some lx → commitset y = Some ly →
  ∃ r1 h1 r2 h2,
    Add x y h = Some (r1, h1) ∧ Add y x h = Some (r2, h2) ∧
    view h1 r1 = view h2 r2.
Proof.
  intros Hx Hy.
  destruct (Add_Some x y lx h Hx) as (h1 & E1 & _).
  destruct (Add_Some y x ly h Hy) as (h2 & E2 & _).
  eexists _, h1, _, h2. split_and!; [done..|].
  destruct (Add_view _ _ _ _ _ _ Hx E1) as [_ ->].
  destruct (Add_view _ _ _ _ _ _ Hy E2) as [_ ->].
  apply combine_comm.
Qed.

(** [(x.Add(y)).Add(z)] and [x.Add(y.Add(z))], run from the same store,
    return the same value, whichever of the three maps are shared. *)
Lemma Add_assoc (x y z : intermediateTally) lx ly (h : heap) :
  commitset x = Some lx → commitset y = Some ly →
  ∃ r1 h1 r2 h2,
    (xy ← Add x y; Add xy z) h = Some (r1, h1) ∧
    (yz ← Add y z; Add x yz) h = Some (r2, h2) ∧
    view h1 r1 = view h2 r2 ∧
    view h1 r1 = combine (view h x) (combine (view h y) (view h z)).
Proof.
  intros Hx Hy. munfold.
  destruct (Add_returns x y lx h Hx) as (xy & h1 & E1 & Hxy).
  destruct (Add_view _ _ _ _ _ _ Hx E1) as [_ Vxy].
  destruct (Add_returns xy z lx h1 Hxy) as (r1 & h2 & E2 & _).
  destruct (Add_view _ _ _ _ _ _ Hxy E2) as [_ V1].
  destruct (Add_returns y z ly h Hy) as (yz & h1' & E1' & Hyz).
  destruct (Add_view _ _ _ _ _ _ Hy E1') as [_ Vyz].
  destruct (Add_returns x yz lx h1' Hx) as (r2 & h2' & E2' & _).
  destruct (Add_view _ _ _ _ _ _ Hx E2') as [_ V2].
  rewrite E1, E2, E1', E2'. eexists _, h2, _, h2'. split_and!; [done..| |].
  - rewrite V1, V2, Vxy, Vyz.
    pose proof (Add_commits_in _ _ z _ _ _ _ Hx E1) as Cz.
    pose proof (Add_commits_in _ _ x _ _ _ _ Hy E1') as Cx.
    apply partial_eq; simpl;
      auto using IntFacts.add_assoc, Max_assoc.
    rewrite Cz, Cx. unfold commits_in. clear -Hx Hy.
    destruct (decide (commitset z = Some lx)) as [Hz|_];
      destruct (decide (commitset x = Some ly)) as [Hx'|_];
      try (assert (lx = ly) as -> by congruence);
      rewrite ?Hz, ?Hx, ?Hy; set_solver.
  - rewrite V1, Vxy.
    pose proof (Add_commits_in _ _ z _ _ _ _ Hx E1) as Cz.
    apply partial_eq; simpl;
      auto using IntFacts.add_assoc, Max_assoc.
    rewrite Cz. unfold commits_in. clear -Hx Hy.
    destruct (decide (commitset z = Some lx)) as [Hz|_];
      rewrite ?Hz, ?Hx, ?Hy; set_solver.
Qed.

(** C2, as stated, fails: the receiver's set is written and the result
    shares it. *)
Lemma Add_not_pure : ¬ Add_pure_at pure_a pure_b pure_h.
Proof.
  intros Hpure.
  destruct (Add_Some pure_a pure_b 1%positive pure_h eq_refl)
    as (h' & E & _).
  destruct (Hpure _ _ E) as (_ & _ & Halias & _). by apply Halias.
Qed.

(** The receiver's set before and after that call. *)
Lemma Add_writes_receiver :
  ∃ r h', Add pure_a pure_b pure_h = Some (r, h') ∧
          commitset r = commitset pure_a ∧
          commits_in pure_h pure_a = ∅ ∧
          commits_in h' pure_a = {[ "4f2a9c1" ]}.
Proof.
  destruct (Add_Some pure_a pure_b 1%positive pure_h eq_refl)
    as (h' & E & _ & _ & Hd).
  eexists _, h'. split_and!; [exact E|done|done|].
  etrans; [exact Hd|]. by vm_compute.
Qed.

(** C2 (amended).  For a receiver [a] whose commit set exists, [a.Add(b)]
    returns a new struct holding the combined value (union of the sets, sums
    of the counts, maximum of the times) and writes no map but [a]'s own:
    [b]'s set and every other map are as before.  The result does not own a
    set of its own: it shares [a]'s map, and that map now holds the
    union. *)
Theorem Add_frame (a b : intermediateTally) (l : loc) (h : heap)
    (Ha : commitset a = Some l) :
  ∃ r h',
    Add a b h = Some (r, h') ∧
    view h' r = combine (view h a) (view h b) ∧
    commitset r = commitset a ∧
    commits_in h' a = commits_in h a ∪ commits_in h b ∧
    (∀ l', l' ≠ l → h' !! l' = h !! l') ∧
    (commitset b ≠ commitset a →
       deref h' (commitset b) = deref h (commitset b)).
Proof.
  destruct (Add_Some a b l h Ha) as (h' & E & Hf & _ & Hd).
  destruct (Add_view _ _ _ _ _ _ Ha E) as [Hr V].
  eexists _, h'. split_and!; [exact E|exact V|by rewrite Ha|..|done|].
  - unfold commits_in at 1. by rewrite Ha.
  - rewrite Ha. intros Hb. destruct (commitset b) as [lb|]; [|done].
    simpl. rewrite Hf; [done|congruence].
Qed.

Lemma Add_frame_witness :
  ∃ r h',
    Add pure_a pure_b pure_h = Some (r, h') ∧
    view h' r = combine (view pure_h pure_a) (view pure_h pure_b) ∧
    commitset r = commitset pure_a ∧
    commits_in h' pure_a
      = commits_in pure_h pure_a ∪ commits_in pure_h pure_b ∧
    (∀ l', l' ≠ 1%positive → h' !! l' = pure_h !! l') ∧
    (commitset pure_b ≠ commitset pure_a →
       deref h' (commitset pure_b) = deref pure_h (commitset pure_b)).
Proof. exact (Add_frame pure_a pure_b 1%positive pure_h eq_refl). Defined.

(** ** Author-level reduction *)

Section reductions.
Context (w : gmap string bool) (allow : bool).

Lemma qualifying_lookup ps p t :
  qualifying w allow ps !! p = Some t
  ↔ ps !! p = Some t ∧ (w !! p = Some true ∨ allow = true).
Proof.
  unfold qualifying. rewrite map_lookup_filter_Some. simpl.
  unfold counted, index. rewrite orb_true_iff.
  destruct (w !! p) as [[]|]; simpl; naive_solver.
Qed.

Lemma qualifying_empty : qualifying w allow ∅ = ∅.
Proof. apply map_filter_empty. Qed.

Lemma qualifying_insert ps p t :
  ps !! p = None →
  qualifying w allow (<[p := t]> ps)
  = if counted w allow p then <[p := t]> (qualifying w allow ps)
    else qualifying w allow ps.
Proof.
  intros Hp. unfold qualifying. destruct (counted w allow p) eqn:E.
  - by apply map_filter_insert_True.
  - apply map_filter_insert_not. simpl. intros _. by rewrite E.
Qed.

Lemma qualifying_fresh ps p :
  ps !! p = None → qualifying w allow ps !! p = None.
Proof. intros Hp. apply map_lookup_filter_None. by left. Qed.

End reductions.

Lemma sum_of_insert f ps p t :
  ps !! p = None → sum_of f (<[p := t]> ps) = f t + sum_of f ps.
Proof.
  intros Hp. unfold sum_of. rewrite map_fold_insert_L; [done| |done].
  intros. lia.
Qed.

Lemma latest_of_insert ps p t :
  ps !! p = None →
  latest_of (<[p := t]> ps) = Z.max (lastCommitTime t) (latest_of ps).
Proof.
  intros Hp. unfold latest_of. rewrite map_fold_insert_L; [done| |done].
  intros. lia.
Qed.

Lemma commits_of_insert h ps p t :
  ps !! p = None →
  commits_of h (<[p := t]> ps) = commits_in h t ∪ commits_of h ps.
Proof.
  intros Hp. unfold commits_of. rewrite map_fold_insert_L; [done| |done].
  intros. set_solver.
Qed.

Lemma elem_of_commits_of h ps c :
  c ∈ commits_of h ps ↔ ∃ p t, ps !! p = Some t ∧ c ∈ commits_in h t.
Proof.
  induction ps as [|p t ps Hp IH] using map_ind.
  - unfold commits_of. rewrite map_fold_empty. split; [set_solver|].
    intros (p & t & Hpt & _). by rewrite lookup_empty in Hpt.
  - rewrite commits_of_insert, elem_of_union, IH by done. split.
    + intros [Hc|(p' & t' & Hpt & Hc)].
      * exists p, t. by rewrite lookup_insert_eq.
      * exists p', t'. rewrite lookup_insert_ne; [done|]. congruence.
    + intros (p' & t' & Hpt & Hc).
      destruct (decide (p = p')) as [<-|Hne].
      * rewrite lookup_insert_eq in Hpt. injection Hpt as <-. by left.
      * rewrite lookup_insert_ne in Hpt by done. right. eauto.
Qed.

Lemma commits_of_ext h h' ps :
  (∀ p t, ps !! p = Some t → commits_in h' t = commits_in h t) →
  commits_of h' ps = commits_of h ps.
Proof.
  intros Hext. apply set_eq. intros c. rewrite !elem_of_commits_of.
  split; intros (p & t & Hpt & Hc); exists p, t; split; try done.
  - by rewrite <- (Hext p t).
  - by rewrite (Hext p t).
Qed.

(** Reading a set that exists in [h] from a store that agrees with [h] on
    what exists in [h]. *)
Lemma commits_in_frame (h h' : heap) t :
  (∀ l, is_Some (h !! l) → h' !! l = h !! l) →
  (∀ l, commitset t = Some l → is_Some (h !! l)) →
  commits_in h' t = commits_in h t.
Proof.
  intros Hf Ht. unfold commits_in. destruct (commitset t) as [l|]; [|done].
  simpl. by rewrite Hf by eauto.
Qed.

Section sumOverPaths.
Context (w : gmap string bool) (allow : bool).

(** The running tally after the loop over an author's paths, started on a
    new map [l] that no path shares. *)
Lemma sumOverPaths_paths (l : loc) (h1 : heap) (ps : gmap string intermediateTally) :
  h1 !! l = Some ∅ →
  (∀ p t, ps !! p = Some t → commitset t ≠ Some l) →
  ∃ rt h2,
    range_map (sumOverPaths_path w allow)
      {| commitset := Some l; added := 0; removed := 0;
         lastCommitTime := time.zero; numTallied := 0 |} ps h1
      = Some (rt, h2) ∧
    commitset rt = Some l ∧
    (∀ l', l' ≠ l → h2 !! l' = h1 !! l') ∧
    commits_in h2 rt = commits_of h1 (qualifying w allow ps) ∧
    added rt = Int.wrap64 (sum_of added (qualifying w allow ps)) ∧
    removed rt = Int.wrap64 (sum_of removed (qualifying w allow ps)) ∧
    numTallied rt = Int.wrap64 (sum_of numTallied (qualifying w allow ps)) ∧
    lastCommitTime rt = latest_of (qualifying w allow ps).
Proof.
  intros Hl. unfold range_map.
  apply (map_fold_weak_ind (λ (r : M intermediateTally) ps,
    (∀ p t, ps !! p = Some t → commitset t ≠ Some l) →
    ∃ rt h2, r h1 = Some (rt, h2) ∧
      commitset rt = Some l ∧
      (∀ l', l' ≠ l → h2 !! l' = h1 !! l') ∧
      commits_in h2 rt = commits_of h1 (qualifying w allow ps) ∧
      added rt = Int.wrap64 (sum_of added (qualifying w allow ps)) ∧
      removed rt = Int.wrap64 (sum_of removed (qualifying w allow ps)) ∧
      numTallied rt
        = Int.wrap64 (sum_of numTallied (qualifying w allow ps)) ∧
      lastCommitTime rt = latest_of (qualifying w allow ps))).
  - intros _. eexists _, h1. split; [done|]. rewrite qualifying_empty.
    unfold commits_in, commits_of, sum_of, latest_of.
    rewrite !map_fold_empty. simpl. rewrite Hl. simpl.
    by split_and!.
  - clear ps. intros p t ps r Hp IH Hps.
    destruct IH as (rt & h2 & Hr & Hrt & Hf & Hc & Ha & Hrm & Hn & Ht).
    { intros p' t' Hpt. apply (Hps p' t'). rewrite lookup_insert_ne; [done|].
      congruence. }
    assert (commitset t ≠ Some l) as Htl.
    { apply (Hps p t). by rewrite lookup_insert_eq. }
    munfold. rewrite Hr. unfold sumOverPaths_path. fold (counted w allow p).
    rewrite qualifying_insert by done.
    destruct (counted w allow p) eqn:Hcounted.
    + pose proof (qualifying_fresh w allow ps p Hp) as Hq.
      destruct (Add_Some rt t l h2 Hrt) as (h3 & E & Hf3 & _ & Hd).
      rewrite E. eexists _, h3. split; [done|]. simpl.
      rewrite commits_of_insert, !sum_of_insert, latest_of_insert by done.
      split_and!.
      * done.
      * intros l' Hl'. by rewrite Hf3, Hf.
      * transitivity (commits_in h2 rt ∪ commits_in h2 t); [exact Hd|].
        rewrite Hc.
        assert (commits_in h2 t = commits_in h1 t) as ->; [|set_solver].
        unfold commits_in. destruct (commitset t) as [lt|]; [|done].
        simpl. rewrite Hf; [done|congruence].
      * rewrite Ha. unfold Int.add. rewrite IntFacts.wrap64_add_l.
        f_equal. lia.
      * rewrite Hrm. unfold Int.add. rewrite IntFacts.wrap64_add_l.
        f_equal. lia.
      * rewrite Hn. unfold Int.add. rewrite IntFacts.wrap64_add_l.
        f_equal. lia.
      * rewrite Ht. unfold timeutils.Max. lia.
    + eexists rt, h2. by split_and!.
Qed.

(** The tally [sumOverPaths_author] stores for an author, and what it leaves
    of the store. *)
Lemma sumOverPaths_author_spec (h0 h : heap) (authorTallies : gmap string Tally)
    (key : string) (author : AuthorPaths) :
  (∀ l, is_Some (h0 !! l) → h !! l = h0 !! l) →
  allocated h0 (paths author) →
  ∃ h',
    sumOverPaths_author w allow authorTallies key author h
      = Some (<[key := author_tally h0 w allow author]> authorTallies, h') ∧
    (∀ l, is_Some (h0 !! l) → h' !! l = h0 !! l).
Proof.
  intros Hh Halloc. unfold sumOverPaths_author, newTally, make_map.
  munfold. simpl. set (l := fresh (dom h)).
  assert (h !! l = None) as Hfresh.
  { apply not_elem_of_dom. apply is_fresh. }
  assert (∀ l', is_Some (h0 !! l') → l' ≠ l) as Hne.
  { intros l' Hl' Heq. rewrite Heq in Hl'. pose proof (Hh l Hl') as Hsame.
    rewrite Hfresh in Hsame. rewrite <- Hsame in Hl'. by destruct Hl'. }
  destruct (sumOverPaths_paths l (<[l := ∅]> h) (paths author))
    as (rt & h2 & -> & Hrt & Hf & Hc & Ha & Hrm & Hn & Ht).
  { apply lookup_insert_eq. }
  { intros p t Hpt Ht. by apply (Hne l); [eapply Halloc|]. }
  unfold intermediateTally_Commits, map_len. simpl.
  assert (∀ l', is_Some (h0 !! l') → h2 !! l' = h0 !! l') as Hframe.
  { intros l' Hl'. rewrite Hf by eauto.
    rewrite lookup_insert_ne by (symmetry; eauto). eauto. }
  exists h2. split; [|done]. do 2 f_equal. f_equal.
  unfold author_tally, set_AuthorName, set_AuthorEmail, set_Commits,
    set_LinesAdded, set_LinesRemoved, set_FileCount, set_LastCommitTime.
  simpl. rewrite Ha, Hrm, Hn, Ht. f_equal.
  rewrite <- size_dom. fold (commits_in h2 rt). rewrite Hc. do 2 f_equal.
  apply commits_of_ext. intros p t Hpt.
  apply qualifying_lookup in Hpt as [Hpt _].
  apply commits_in_frame.
  - intros l' Hl'. rewrite lookup_insert_ne by (symmetry; eauto). eauto.
  - intros l' Hl'. by eapply Halloc.
Qed.

(** [sumOverPaths] on a table whose maps exist: it returns, never panics,
    keeps every map of the store it started from, and gives each author the
    reduction over that author's counted paths. *)
Lemma sumOverPaths_spec (h : heap) (authors : gmap string AuthorPaths) :
  table_allocated h authors →
  ∃ tallies h',
    sumOverPaths authors w allow h = Some (tallies, h') ∧
    (∀ l, is_Some (h !! l) → h' !! l = h !! l) ∧
    ∀ k, tallies !! k = author_tally h w allow <$> authors !! k.
Proof.
  unfold sumOverPaths, range_map.
  apply (map_fold_weak_ind (λ (r : M (gmap string Tally)) authors,
    table_allocated h authors →
    ∃ tallies h', r h = Some (tallies, h') ∧
      (∀ l, is_Some (h !! l) → h' !! l = h !! l) ∧
      ∀ k, tallies !! k = author_tally h w allow <$> authors !! k)).
  - intros _. exists ∅, h. split_and!; [done..|]. intros k.
    by rewrite !lookup_empty.
  - clear authors. intros key author authors r Hkey IH Halloc.
    destruct IH as (tallies & h1 & Hr & Hf & Hlookup).
    { intros k a Hk. apply (Halloc k a). rewrite lookup_insert_ne; [done|].
      congruence. }
    munfold. rewrite Hr.
    destruct (sumOverPaths_author_spec h h1 tallies key author Hf)
      as (h2 & -> & Hf2).
    { apply (Halloc key). by rewrite lookup_insert_eq. }
    eexists _, h2. split_and!; [done..|]. intros k.
    destruct (decide (key = k)) as [->|Hne].
    + by rewrite !lookup_insert_eq.
    + by rewrite !lookup_insert_ne.
Qed.

End sumOverPaths.

#[local] Instance set_exists_dec h t : Decision (set_exists h t).
Proof. unfold set_exists. apply _. Defined.

Lemma table_allocated_check (h : heap) (authors : gmap string AuthorPaths) :
  map_Forall (λ _ a, map_Forall (λ _ t, set_exists h t) (paths a)) authors →
  table_allocated h authors.
Proof.
  intros Hall k a Hk p t l Hp Hl.
  destruct (Hall k a Hk p t Hp) as [Hnone|Hsome].
  - congruence.
  - by rewrite Hl in Hsome.
Qed.

Lemma sum_of_delete f ps p t :
  ps !! p = Some t → sum_of f ps = f t + sum_of f (delete p ps).
Proof.
  intros Hp. rewrite <- (insert_delete_id ps p t Hp) at 1.
  apply sum_of_insert, lookup_delete_eq.
Qed.

Lemma latest_of_delete ps p t :
  ps !! p = Some t →
  latest_of ps = Z.max (lastCommitTime t) (latest_of (delete p ps)).
Proof.
  intros Hp. rewrite <- (insert_delete_id ps p t Hp) at 1.
  apply latest_of_insert, lookup_delete_eq.
Qed.

Lemma ex_allocated : table_allocated ex_heap ex_authors.
Proof. apply table_allocated_check, (bool_decide_unpack _). by vm_compute. Qed.

(** C4.  In [sumOverPaths], the tally of every author is the reduction over
    the paths [p] of that author's path map with [p] in the working-tree
    filter set or the override flag set, and over no other path: the file
    count, both line totals, the commit set and the last-commit time are
    those of exactly these paths.  A path that meets the condition adds its
    tallied-count, its lines, its commits and its time; a path that does not
    can be removed from the table without changing anything. *)
Theorem sumOverPaths_filter_law (authors : gmap string AuthorPaths)
    (wtreefiles : gmap string bool) (allowOutsideWorktree : bool) (h : heap)
    (Halloc : table_allocated h authors) :
  ∃ tallies h',
    sumOverPaths authors wtreefiles allowOutsideWorktree h
      = Some (tallies, h') ∧
    (∀ key, is_Some (tallies !! key) ↔ is_Some (authors !! key)) ∧
    ∀ key author tally,
      authors !! key = Some author → tallies !! key = Some tally →
      let contributing :=
        qualifying wtreefiles allowOutsideWorktree (paths author) in
      (∀ p t, contributing !! p = Some t
              ↔ paths author !! p = Some t ∧
                (wtreefiles !! p = Some true ∨ allowOutsideWorktree = true)) ∧
      FileCount tally = Int.wrap64 (sum_of numTallied contributing) ∧
      LinesAdded tally = Int.wrap64 (sum_of added contributing) ∧
      LinesRemoved tally = Int.wrap64 (sum_of removed contributing) ∧
      Commits tally = Z.of_nat (size (commits_of h contributing)) ∧
      LastCommitTime tally = latest_of contributing ∧
      (∀ p t, paths author !! p = Some t →
         wtreefiles !! p = Some true ∨ allowOutsideWorktree = true →
         sum_of numTallied contributing
           = numTallied t + sum_of numTallied (delete p contributing) ∧
         sum_of added contributing
           = added t + sum_of added (delete p contributing) ∧
         sum_of removed contributing
           = removed t + sum_of removed (delete p contributing) ∧
         commits_in h t ⊆ commits_of h contributing ∧
         lastCommitTime t ≤ latest_of contributing) ∧
      (∀ p t, paths author !! p = Some t →
         ¬ (wtreefiles !! p = Some true ∨ allowOutsideWorktree = true) →
         qualifying wtreefiles allowOutsideWorktree (delete p (paths author))
           = contributing).
Proof.
  destruct (sumOverPaths_spec wtreefiles allowOutsideWorktree h authors Halloc)
    as (tallies & h' & E & _ & Hlookup).
  exists tallies, h'. split_and!; [done|..].
  - intros key. rewrite Hlookup. apply fmap_is_Some.
  - intros key author tally Hkey Htally contributing.
    rewrite Hlookup, Hkey in Htally. injection Htally as <-.
    split_and!; try done.
    + apply qualifying_lookup.
    + intros p t Hp Hcond.
      assert (contributing !! p = Some t) as Hc
        by by apply qualifying_lookup.
      split_and!; try by apply sum_of_delete.
      * intros c Hc'. apply elem_of_commits_of. eauto.
      * rewrite (latest_of_delete _ _ _ Hc). lia.
    + intros p t Hp Hcond. unfold contributing, qualifying.
      rewrite map_filter_delete. apply delete_id.
      apply eq_None_not_Some. intros [t' Ht'].
      apply qualifying_lookup in Ht' as [_ Ht']. done.
Qed.

Lemma sumOverPaths_filter_law_witness :
  ∃ tallies h',
    sumOverPaths ex_authors ex_wtree false ex_heap = Some (tallies, h') ∧
    (∀ key, is_Some (tallies !! key) ↔ is_Some (ex_authors !! key)) ∧
    ∀ key author tally,
      ex_authors !! key = Some author → tallies !! key = Some tally →
      let contributing := qualifying ex_wtree false (paths author) in
      (∀ p t, contributing !! p = Some t
              ↔ paths author !! p = Some t ∧
                (ex_wtree !! p = Some true ∨ false = true)) ∧
      FileCount tally = Int.wrap64 (sum_of numTallied contributing) ∧
      LinesAdded tally = Int.wrap64 (sum_of added contributing) ∧
      LinesRemoved tally = Int.wrap64 (sum_of removed contributing) ∧
      Commits tally = Z.of_nat (size (commits_of ex_heap contributing)) ∧
      LastCommitTime tally = latest_of contributing ∧
      (∀ p t, paths author !! p = Some t →
         ex_wtree !! p = Some true ∨ false = true →
         sum_of numTallied contributing
           = numTallied t + sum_of numTallied (delete p contributing) ∧
         sum_of added contributing
           = added t + sum_of added (delete p contributing) ∧
         sum_of removed contributing
           = removed t + sum_of removed (delete p contributing) ∧
         commits_in ex_heap t ⊆ commits_of ex_heap contributing ∧
         lastCommitTime t ≤ latest_of contributing) ∧
      (∀ p t, paths author !! p = Some t →
         ¬ (ex_wtree !! p = Some true ∨ false = true) →
         qualifying ex_wtree false (delete p (paths author)) = contributing).
Proof.
  exact (sumOverPaths_filter_law ex_authors ex_wtree false ex_heap
           ex_allocated).
Defined.

(** The example, run: two files counted, the third left out; one commit. *)
Example sumOverPaths_example :
  (fst <$> sumOverPaths ex_authors ex_wtree false ex_heap) =
  Some {[ "ada@example.org" :=
            {| AuthorName := "Ada"; AuthorEmail := "ada@example.org";
               Commits := 1; LinesAdded := 15; LinesRemoved := 2;
               FileCount := 2;
               LastCommitTime := 1700000000 * 10 ^ 9 |} ]}.
Proof. by vm_compute. Qed.

(** ** The dedup law *)

Lemma commits_in_erase c h t :
  commits_in (erase_commit c h) t = commits_in h t ∖ {[ c ]}.
Proof.
  unfold commits_in, erase_commit. destruct (commitset t) as [l|]; simpl.
  - rewrite lookup_fmap. destruct (h !! l) as [m|]; simpl.
    + apply dom_delete_L.
    + set_solver.
  - set_solver.
Qed.

Lemma commits_of_erase c h ps :
  commits_of (erase_commit c h) ps = commits_of h ps ∖ {[ c ]}.
Proof.
  apply set_eq. intros c'.
  rewrite elem_of_difference, !elem_of_commits_of. split.
  - intros (p & t & Hp & Hc). rewrite commits_in_erase in Hc.
    apply elem_of_difference in Hc as [Hc Hne]. eauto.
  - intros [(p & t & Hp & Hc) Hne]. exists p, t. split; [done|].
    rewrite commits_in_erase. by apply elem_of_difference.
Qed.

Lemma table_allocated_erase c h authors :
  table_allocated h authors → table_allocated (erase_commit c h) authors.
Proof.
  intros Halloc k a Hk p t l Hp Hl. unfold erase_commit.
  rewrite lookup_fmap. apply fmap_is_Some. by eapply Halloc.
Qed.

Lemma files_touched_pos h c ps :
  (1 ≤ files_touched h c ps)%nat → c ∈ commits_of h ps.
Proof.
  unfold files_touched. intros Hn.
  destruct (map_choose (filter (λ pt, c ∈ commits_in h pt.2) ps))
    as (p & t & Hpt).
  { apply map_size_non_empty_iff. lia. }
  apply map_lookup_filter_Some in Hpt as [Hp Hc].
  apply elem_of_commits_of. eauto.
Qed.

(** C3.  The final commit count of an author is the cardinality of the union
    of the commit-identifier sets of the author's counted paths.  Hence a
    commit that touched N >= 1 counted files of the author adds exactly 1 to
    it, whatever N is: the count is one more than on the same table with
    that commit taken out. *)
Theorem sumOverPaths_dedup (authors : gmap string AuthorPaths)
    (wtreefiles : gmap string bool) (allowOutsideWorktree : bool) (h : heap)
    (key : string) (author : AuthorPaths) (c : string) (N : nat)
    (Halloc : table_allocated h authors)
    (Hkey : authors !! key = Some author)
    (HN : N = files_touched h c
                (qualifying wtreefiles allowOutsideWorktree (paths author)))
    (Htouched : (1 ≤ N)%nat) :
  ∃ tallies h1 tally without h2 tally',
    sumOverPaths authors wtreefiles allowOutsideWorktree h
      = Some (tallies, h1) ∧
    tallies !! key = Some tally ∧
    Commits tally
      = Z.of_nat (size (commits_of h
          (qualifying wtreefiles allowOutsideWorktree (paths author)))) ∧
    sumOverPaths authors wtreefiles allowOutsideWorktree (erase_commit c h)
      = Some (without, h2) ∧
    without !! key = Some tally' ∧
    Commits tally = Commits tally' + 1.
Proof.
  subst N.
  destruct (sumOverPaths_spec wtreefiles allowOutsideWorktree h authors Halloc)
    as (tallies & h1 & E & _ & Hlookup).
  destruct (sumOverPaths_spec wtreefiles allowOutsideWorktree
              (erase_commit c h) authors (table_allocated_erase _ _ _ Halloc))
    as (without & h2 & E' & _ & Hlookup').
  exists tallies, h1,
    (author_tally h wtreefiles allowOutsideWorktree author), without, h2,
    (author_tally (erase_commit c h) wtreefiles allowOutsideWorktree author).
  split_and!; [exact E| |reflexivity|exact E'| |].
  - by rewrite Hlookup, Hkey.
  - by rewrite Hlookup', Hkey.
  - simpl. rewrite commits_of_erase.
    apply files_touched_pos in Htouched.
    rewrite size_difference by set_solver. rewrite size_singleton.
    assert (size (commits_of h
              (qualifying wtreefiles allowOutsideWorktree (paths author)))
            ≠ 0%nat); [|lia].
    apply size_non_empty_iff. set_solver.
Qed.

Lemma sumOverPaths_dedup_witness :
  (1 ≤ 2)%nat ∧
  2%nat = files_touched ex_heap "4f2a9c1"
            (qualifying ex_wtree false (paths ex_author)) ∧
  ∃ tallies h1 tally without h2 tally',
    sumOverPaths ex_authors ex_wtree false ex_heap = Some (tallies, h1) ∧
    tallies !! "ada@example.org" = Some tally ∧
    Commits tally
      = Z.of_nat (size (commits_of ex_heap
          (qualifying ex_wtree false (paths ex_author)))) ∧
    sumOverPaths ex_authors ex_wtree false (erase_commit "4f2a9c1" ex_heap)
      = Some (without, h2) ∧
    without !! "ada@example.org" = Some tally' ∧
    Commits tally = Commits tally' + 1.
Proof.
  assert (2%nat = files_touched ex_heap "4f2a9c1"
            (qualifying ex_wtree false (paths ex_author))) as HN
    by (by vm_compute).
  split_and!; [lia|exact HN|].
  apply (sumOverPaths_dedup ex_authors ex_wtree false ex_heap
           "ada@example.org" ex_author "4f2a9c1" 2 ex_allocated);
    [by vm_compute|exact HN|lia].
Defined.

(** ** The simple strategy *)

Section simple.
Context (opts : TallyOpts).

Lemma error_free_or_not (commits : Seq2) :
  error_free commits ∨
  ∃ pre c e suf, commits = pre ++ (c, Some e) :: suf ∧ error_free pre.
Proof.
  induction commits as [|[c [e|]] commits IH].
  - left. constructor.
  - right. exists [], c, e, commits. split; [done|constructor].
  - destruct IH as [IH|(pre & c' & e & suf & -> & Hpre)].
    + left. by constructor.
    + right. exists ((c, None) :: pre), c', e, suf. split; [done|].
      by constructor.
Qed.

Lemma tallyCommits_loop_ok (commits : Seq2) (s : gmap string Tally) (h : heap) :
  error_free commits →
  for_range (tallyCommits_commit opts) s commits h
  = Some ((Continue (foldl (tally_step opts) s commits.*1), []), h).
Proof.
  revert s. induction commits as [|[c e] commits IH]; intros s Hok.
  - done.
  - apply Forall_cons in Hok as [He Hok]. simpl in He. subst e.
    simpl. munfold. simpl. by rewrite IH.
Qed.

Lemma tallyCommits_loop_err (pre : Seq2) c e (suf : Seq2)
    (s : gmap string Tally) (h : heap) :
  error_free pre →
  for_range (tallyCommits_commit opts) s (pre ++ (c, Some e) :: suf) h
  = Some ((Return (fmt_Errorf_w "error iterating commits: " e), suf), h).
Proof.
  revert s. induction pre as [|[c' e'] pre IH]; intros s Hok.
  - done.
  - apply Forall_cons in Hok as [He Hok]. simpl in He. subst e'.
    simpl. munfold. simpl. by rewrite IH.
Qed.

Lemma tally_of_snoc cs c : tally_of (cs ++ [c]) = bump c (tally_of cs).
Proof. unfold tally_of. by rewrite foldl_app. Qed.

Lemma commits_by_snoc key cs c :
  commits_by opts key (cs ++ [c])
  = if decide (Key opts c = key) then commits_by opts key cs ++ [c]
    else commits_by opts key cs.
Proof.
  unfold commits_by. rewrite filter_app, filter_cons, filter_nil.
  case_decide; [done|]. by rewrite app_nil_r.
Qed.

(** The map the loop builds, entry by entry. *)
Lemma tally_step_lookup (cs : list git.Commit) (key : string) :
  foldl (tally_step opts) ∅ cs !! key
  = if decide (commits_by opts key cs = []) then None
    else Some (tally_of (commits_by opts key cs)).
Proof.
  induction cs as [|c cs IH] using rev_ind.
  - done.
  - rewrite foldl_app. simpl. unfold tally_step at 1.
    rewrite commits_by_snoc.
    destruct (decide (Key opts c = key)) as [Hk|Hk].
    + rewrite Hk, lookup_insert_eq. rewrite decide_False.
      2:{ intros Hnil. by apply app_eq_nil in Hnil as [_ ?]. }
      rewrite tally_of_snoc. do 2 f_equal.
      unfold index. rewrite IH. by case_decide as Hnil; [rewrite Hnil|].
    + by rewrite lookup_insert_ne.
Qed.

Lemma tally_of_Commits cs :
  Commits (tally_of cs) = Int.wrap64 (Z.of_nat (length cs)).
Proof.
  induction cs as [|c cs IH] using rev_ind.
  - done.
  - rewrite tally_of_snoc. simpl. rewrite IH. unfold Int.add.
    rewrite IntFacts.wrap64_add_l, length_app. simpl. f_equal. lia.
Qed.

Lemma tally_of_no_diff cs :
  LinesAdded (tally_of cs) = 0 ∧ LinesRemoved (tally_of cs) = 0 ∧
  FileCount (tally_of cs) = 0.
Proof.
  induction cs as [|c cs IH] using rev_ind; [done|].
  by rewrite tally_of_snoc.
Qed.

Lemma tally_of_time_ge cs : time.zero ≤ LastCommitTime (tally_of cs).
Proof.
  induction cs as [|c cs IH] using rev_ind; [done|].
  rewrite tally_of_snoc. simpl. unfold timeutils.Max. lia.
Qed.

End simple.

Lemma insert_by_perm {A : Type} (cmp : A → A → option Z) x l l' :
  insert_by cmp x l = Some l' → l' ≡ₚ x :: l.
Proof.
  revert l'. induction l as [|y l IH]; intros l'; simpl.
  - by intros [= <-].
  - destruct (cmp x y) as [c|]; [|done]. simpl. case_match.
    + by intros [= <-].
    + destruct (insert_by cmp x l) as [l''|]; [|done]. simpl.
      intros [= <-]. rewrite (IH l'' eq_refl). apply Permutation_swap.
Qed.

Lemma SortedFunc_perm {A : Type} (cmp : A → A → option Z) l l' :
  SortedFunc cmp l = Some l' → l' ≡ₚ l.
Proof.
  revert l'. induction l as [|x l IH]; intros l'; simpl.
  - by intros [= <-].
  - destruct (SortedFunc cmp l) as [s|]; [|done]. simpl. intros Hins.
    apply insert_by_perm in Hins. by rewrite Hins, (IH s eq_refl).
Qed.

Lemma elem_of_Values {A : Type} (m : gmap string A) (x : A) :
  x ∈ Values m ↔ ∃ k, m !! k = Some x.
Proof.
  unfold Values. rewrite list_elem_of_fmap. split.
  - intros ([k y] & -> & Hin). exists k. by apply elem_of_map_to_list.
  - intros [k Hk]. exists (k, x). split; [done|].
    by apply elem_of_map_to_list.
Qed.

(** The map of the simple strategy on a sequence without errors. *)
Lemma tallyCommits_simple (commits : Seq2) (w : gmap string bool)
    (opts : TallyOpts) (h : heap) :
  IsDiffMode opts = false → error_free commits →
  tallyCommits commits w true opts h
  = Some (Ok (foldl (tally_step opts) ∅ commits.*1), h).
Proof.
  intros Hmode Hok. unfold tallyCommits, tallyCommits_loop.
  rewrite Hmode. simpl. munfold. by rewrite tallyCommits_loop_ok.
Qed.

Lemma tallyCommits_simple_err (pre : Seq2) c e (suf : Seq2)
    (w : gmap string bool) (opts : TallyOpts) (h : heap) :
  IsDiffMode opts = false → error_free pre →
  tallyCommits (pre ++ (c, Some e) :: suf) w true opts h
  = Some (Fail (fmt_Errorf_w "error iterating commits: " e), h).
Proof.
  intros Hmode Hok. unfold tallyCommits, tallyCommits_loop.
  rewrite Hmode. simpl. munfold. by rewrite tallyCommits_loop_err.
Qed.

(** C10.  With a non-diff mode and the override flag set (the simple
    strategy), every tally that [TallyCommits] returns has no lines added,
    no lines removed and no files, and its [Commits] is the number of
    elements of the sequence whose author key is the key of that tally:
    elements are counted, not commit identifiers, so a commit delivered
    twice counts twice.  (The sequence is shorter than 2^63, as every
    sequence a machine can deliver is, so that the count fits an [int].) *)
Theorem TallyCommits_simple_counts (commits : Seq2)
    (wtreefiles : gmap string bool) (opts : TallyOpts) (h h' : heap)
    (sorted : list Tally)
    (Hmode : IsDiffMode opts = false)
    (Hlen : Z.of_nat (length commits) < 2 ^ 63)
    (Hret : TallyCommits commits wtreefiles true opts h
            = Some (Ok sorted, h')) :
  ∃ authorTallies,
    tallyCommits commits wtreefiles true opts h = Some (Ok authorTallies, h') ∧
    sorted ≡ₚ Values authorTallies ∧
    (∀ t, t ∈ sorted → ∃ key, authorTallies !! key = Some t) ∧
    ∀ key t, authorTallies !! key = Some t →
      LinesAdded t = 0 ∧ LinesRemoved t = 0 ∧ FileCount t = 0 ∧
      Commits t = Z.of_nat (length (commits_by opts key commits.*1)) ∧
      1 ≤ Commits t.
Proof.
  unfold TallyCommits in Hret. munfold.
  destruct (error_free_or_not commits)
    as [Hok|(pre & c & e & suf & -> & Hpre)].
  2:{ by rewrite tallyCommits_simple_err in Hret. }
  rewrite tallyCommits_simple in Hret |- * by done.
  destruct (sortTallies _ (Mode opts)) as [sorted'|] eqn:Hsort; [|done].
  simpl in Hret. injection Hret as -> ->.
  eexists. split; [done|].
  pose proof (SortedFunc_perm _ _ _ Hsort) as Hperm.
  split_and!; [done|..].
  - intros t Ht. rewrite Hperm in Ht. by apply elem_of_Values.
  - intros key t Hkey. rewrite tally_step_lookup in Hkey.
    case_decide as Hnil; [done|]. injection Hkey as <-.
    pose proof (tally_of_no_diff (commits_by opts key commits.*1))
      as (? & ? & ?).
    rewrite tally_of_Commits.
    assert (length (commits_by opts key commits.*1) ≤ length commits)%nat.
    { unfold commits_by. etrans; [apply length_filter|].
      by rewrite length_fmap. }
    assert (length (commits_by opts key commits.*1) ≠ 0%nat).
    { by intros ?%length_zero_iff_nil. }
    rewrite IntFacts.wrap64_id by (unfold Int.in_range; lia).
    split_and!; try done. lia.
Qed.

Lemma TallyCommits_simple_counts_witness :
  IsDiffMode (by_email CommitMode) = false ∧
  Z.of_nat (length ex_twice) < 2 ^ 63 ∧
  TallyCommits ex_twice ex_wtree true (by_email CommitMode) ∅
    = Some (Ok ex_twice_sorted, ∅) ∧
  ∃ authorTallies,
    tallyCommits ex_twice ex_wtree true (by_email CommitMode) ∅
      = Some (Ok authorTallies, ∅) ∧
    ex_twice_sorted ≡ₚ Values authorTallies ∧
    (∀ t, t ∈ ex_twice_sorted → ∃ key, authorTallies !! key = Some t) ∧
    ∀ key t, authorTallies !! key = Some t →
      LinesAdded t = 0 ∧ LinesRemoved t = 0 ∧ FileCount t = 0 ∧
      Commits t
        = Z.of_nat (length (commits_by (by_email CommitMode) key
                              ex_twice.*1)) ∧
      1 ≤ Commits t.
Proof.
  assert (IsDiffMode (by_email CommitMode) = false) as Hmode by done.
  assert (Z.of_nat (length ex_twice) < 2 ^ 63) as Hlen by done.
  assert (TallyCommits ex_twice ex_wtree true (by_email CommitMode) ∅
          = Some (Ok ex_twice_sorted, ∅)) as Hret by (by vm_compute).
  split_and!; [done..|].
  exact (TallyCommits_simple_counts ex_twice ex_wtree (by_email CommitMode)
           ∅ ∅ ex_twice_sorted Hmode Hlen Hret).
Defined.

(** The commit delivered twice is counted twice. *)
Example TallyCommits_counts_twice :
  Commits <$> ex_twice_sorted = [2; 1] ∧
  length (commits_by (by_email CommitMode) "ada@example.org" ex_twice.*1)
  = 2%nat.
Proof. by vm_compute. Qed.

(** ** Errors of the commit sequence *)

Lemma tallyByPaths_diff_returns opts commit authors diff (h : heap) :
  sets_made authors →
  ∃ authors' h',
    tallyByPaths_diff opts commit authors diff h = Some (authors', h') ∧
    sets_made authors'.
Proof.
  intros Hmade. unfold tallyByPaths_diff.
  set (key := Key opts commit).
  set (author := index _ authors key).
  assert (∀ p t, paths author !! p = Some t → is_Some (commitset t)) as Hauthor.
  { intros p t. unfold author, index.
    destruct (authors !! key) as [a|] eqn:Hk; simpl; [by eapply Hmade|done]. }
  assert (∀ r l, commitset r = Some l →
    sets_made (<[key := {| name := git.AuthorName commit;
                           email := git.AuthorEmail commit;
                           paths := <[git.Path diff := r]> (paths author) |}]>
                 authors)) as Hfinish.
  { intros r l Hr k a p t Hk Hp. destruct (decide (key = k)) as [<-|Hne].
    - rewrite lookup_insert_eq in Hk. injection Hk as <-. simpl in Hp.
      destruct (decide (git.Path diff = p)) as [<-|Hnp].
      + rewrite lookup_insert_eq in Hp. injection Hp as <-. by rewrite Hr.
      + rewrite lookup_insert_ne in Hp by done. by eapply Hauthor.
    - rewrite lookup_insert_ne in Hk by done. by eapply Hmade. }
  destruct (paths author !! git.Path diff) as [t|] eqn:Hp.
  - destruct (Hauthor _ _ Hp) as [l Hl]. munfold. rewrite Hl. simpl.
    eexists _, _. split; [done|]. by eapply Hfinish.
  - unfold newTally, make_map. munfold. simpl.
    eexists _, _. split; [done|]. by eapply Hfinish.
Qed.

Lemma tallyByPaths_diffs_return opts commit diffs authors (h : heap) :
  sets_made authors →
  ∃ authors' h',
    range_slice (tallyByPaths_diff opts commit) authors diffs h
      = Some (authors', h') ∧
    sets_made authors'.
Proof.
  revert authors h. induction diffs as [|d diffs IH]; intros authors h Hmade.
  - by exists authors, h.
  - simpl. munfold.
    destruct (tallyByPaths_diff_returns opts commit authors d h Hmade)
      as (authors1 & h1 & -> & Hmade1).
    apply IH, Hmade1.
Qed.

Lemma tallyByPaths_loop_ok opts (commits : Seq2) authors (h : heap) :
  sets_made authors → error_free commits →
  ∃ authors' h',
    for_range (tallyByPaths_commit opts) authors commits h
      = Some ((Continue authors', []), h') ∧
    sets_made authors'.
Proof.
  revert authors h.
  induction commits as [|[c e] commits IH]; intros authors h Hmade Hok.
  - by exists authors, h.
  - apply Forall_cons in Hok as [He Hok]. simpl in He. subst e.
    simpl. munfold.
    destruct (tallyByPaths_diffs_return opts c (git.FileDiffs c) authors h
                Hmade) as (authors1 & h1 & -> & Hmade1).
    by apply IH.
Qed.

Lemma tallyByPaths_loop_err opts (pre : Seq2) c e (suf : Seq2) authors
    (h : heap) :
  sets_made authors → error_free pre →
  ∃ h',
    for_range (tallyByPaths_commit opts) authors (pre ++ (c, Some e) :: suf) h
    = Some ((Return (fmt_Errorf_w "error iterating commits: " e), suf), h').
Proof.
  revert authors h.
  induction pre as [|[c' e'] pre IH]; intros authors h Hmade Hok.
  - by exists h.
  - apply Forall_cons in Hok as [He Hok]. simpl in He. subst e'.
    simpl. munfold.
    destruct (tallyByPaths_diffs_return opts c' (git.FileDiffs c') authors h
                Hmade) as (authors1 & h1 & -> & Hmade1).
    by apply IH.
Qed.

Lemma sets_made_empty : sets_made ∅.
Proof. intros k a p t Hk. by rewrite lookup_empty in Hk. Qed.

(** [tallyCommits] hands on a failure of [tallyByPaths] as it is, without
    running the reduction, and [TallyCommits] hands on a failure of
    [tallyCommits] without sorting. *)
Lemma tallyCommits_propagates (commits : Seq2) (w : gmap string bool)
    (allow : bool) (opts : TallyOpts) (h h' : heap) (err : error) :
  negb (IsDiffMode opts) && allow = false →
  tallyByPaths commits w opts h = Some (Fail err, h') →
  tallyCommits commits w allow opts h = Some (Fail err, h').
Proof.
  intros Hstrategy Hfail. unfold tallyCommits. rewrite Hstrategy.
  munfold. by rewrite Hfail.
Qed.

Lemma TallyCommits_propagates (commits : Seq2) (w : gmap string bool)
    (allow : bool) (opts : TallyOpts) (h h' : heap) (err : error) :
  tallyCommits commits w allow opts h = Some (Fail err, h') →
  TallyCommits commits w allow opts h = Some (Fail err, h').
Proof. intros Hfail. unfold TallyCommits. munfold. by rewrite Hfail. Qed.

(** C7.  When the first error of the sequence is [e], on the element after
    the error-free elements [pre], the loop of the engine returns at that
    element: the elements [suf] after it are never yielded.  [tallyCommits]
    and [TallyCommits] return no result ([Fail]: a nil map, a nil slice) and
    the error that wraps [e] with the context "error iterating commits: ";
    nothing of what [pre] contributed is returned. *)
Theorem TallyCommits_aborts (pre suf : Seq2) (commit : git.Commit)
    (e : error) (wtreefiles : gmap string bool)
    (allowOutsideWorktree : bool) (opts : TallyOpts) (h : heap)
    (Hpre : error_free pre) :
  let commits := pre ++ (commit, Some e) :: suf in
  let err := fmt_Errorf_w "error iterating commits: " e in
  ∃ h',
    engine_loop commits allowOutsideWorktree opts h
      = Some ((Some err, suf), h') ∧
    tallyCommits commits wtreefiles allowOutsideWorktree opts h
      = Some (Fail err, h') ∧
    TallyCommits commits wtreefiles allowOutsideWorktree opts h
      = Some (Fail err, h') ∧
    Unwrap err = Some e.
Proof.
  intros commits err.
  assert (∃ h', engine_loop commits allowOutsideWorktree opts h
                  = Some ((Some err, suf), h') ∧
                tallyCommits commits wtreefiles allowOutsideWorktree opts h
                  = Some (Fail err, h')) as (h' & Hloop & Hfail).
  { unfold engine_loop, tallyCommits, tallyByPaths, tallyCommits_loop,
      tallyByPaths_loop.
    destruct (negb (IsDiffMode opts) && allowOutsideWorktree); munfold.
    - exists h. unfold commits. by rewrite tallyCommits_loop_err.
    - destruct (tallyByPaths_loop_err opts pre commit e suf ∅ h
                  sets_made_empty Hpre) as (h' & E).
      exists h'. unfold commits. by rewrite E. }
  exists h'. split_and!; [done..| |done].
  by apply TallyCommits_propagates.
Qed.

Lemma TallyCommits_aborts_witness :
  error_free [(ex_c1, None)] ∧
  ∃ h',
    engine_loop ex_failing false (by_email LinesMode) ∅
      = Some ((Some (fmt_Errorf_w "error iterating commits: "
                       (errors_New "unexpected EOF")),
               [(ex_c1, None)]), h') ∧
    tallyCommits ex_failing ex_wtree false (by_email LinesMode) ∅
      = Some (Fail (fmt_Errorf_w "error iterating commits: "
                      (errors_New "unexpected EOF")), h') ∧
    TallyCommits ex_failing ex_wtree false (by_email LinesMode) ∅
      = Some (Fail (fmt_Errorf_w "error iterating commits: "
                      (errors_New "unexpected EOF")), h') ∧
    Unwrap (fmt_Errorf_w "error iterating commits: "
              (errors_New "unexpected EOF"))
      = Some (errors_New "unexpected EOF").
Proof.
  assert (error_free [(ex_c1, None)]) as Hpre by (by repeat constructor).
  split; [exact Hpre|].
  exact (TallyCommits_aborts [(ex_c1, None)] [(ex_c1, None)] ex_c2
           (errors_New "unexpected EOF") ex_wtree false (by_email LinesMode)
           ∅ Hpre).
Defined.

(** ** The mode guard of the simple pipeline *)

Lemma IsDiffMode_true opts :
  IsDiffMode opts = true ↔ Mode opts = LinesMode ∨ Mode opts = FilesMode.
Proof.
  unfold IsDiffMode. rewrite orb_true_iff, !bool_decide_eq_true. tauto.
Qed.

(** Every error of [tallyByPaths] wraps an error of the sequence. *)
Lemma tallyByPaths_Fail commits w opts (h h' : heap) err :
  tallyByPaths commits w opts h = Some (Fail err, h') →
  ∃ e, err = fmt_Errorf_w "error iterating commits: " e.
Proof.
  unfold tallyByPaths, tallyByPaths_loop. munfold.
  destruct (error_free_or_not commits)
    as [Hok|(pre & c & e & suf & -> & Hpre)].
  - destruct (tallyByPaths_loop_ok opts commits ∅ h sets_made_empty Hok)
      as (authors & h1 & -> & _). done.
  - destruct (tallyByPaths_loop_err opts pre c e suf ∅ h sets_made_empty Hpre)
      as (h1 & ->). simpl. intros [= <- <-]. by exists e.
Qed.

(** Every error of [tallyCommits] wraps an error of the sequence. *)
Lemma tallyCommits_Fail commits w allow opts (h h' : heap) err :
  tallyCommits commits w allow opts h = Some (Fail err, h') →
  ∃ e, err = fmt_Errorf_w "error iterating commits: " e.
Proof.
  unfold tallyCommits, tallyCommits_loop.
  destruct (negb (IsDiffMode opts) && allow); munfold.
  - destruct (error_free_or_not commits)
      as [Hok|(pre & c & e & suf & -> & Hpre)].
    + by rewrite tallyCommits_loop_ok.
    + rewrite tallyCommits_loop_err by done. simpl.
      intros [= <- <-]. by exists e.
  - destruct (tallyByPaths commits w opts h) as [[[authors|err'] h1]|] eqn:E;
      [|intros [= <- <-]; by eapply tallyByPaths_Fail|done].
    by destruct (sumOverPaths authors w allow h1) as [[]|].
Qed.

(** C8.  The [apply] of [TallyCommitsApplyMerge] tests the mode before it
    touches the sequence.  For a diff-requiring mode ([LinesMode],
    [FilesMode]) it returns no map and the error "unsupported tally mode",
    whatever the sequence holds and without a change to the store: the
    error is that of the configuration, never that of a commit.  For any
    other mode ([CommitMode], [LastModifiedMode]) it is [tallyCommits], and
    never returns that error. *)
Theorem apply_rejects_diff_modes (wtreeset : gmap string bool)
    (allowOutsideWorktree : bool) (opts : TallyOpts) (commits : Seq2)
    (h : heap) :
  (IsDiffMode opts = true ↔ Mode opts = LinesMode ∨ Mode opts = FilesMode) ∧
  (Mode opts = CommitMode ∨ Mode opts = LastModifiedMode →
   IsDiffMode opts = false) ∧
  TallyCommitsApplyMerge.apply wtreeset allowOutsideWorktree opts commits h
  = (if IsDiffMode opts
     then Some (Fail (errors_New "unsupported tally mode"), h)
     else tallyCommits commits wtreeset allowOutsideWorktree opts h) ∧
  ∀ r h',
    TallyCommitsApplyMerge.apply wtreeset allowOutsideWorktree opts commits h
      = Some (r, h') →
    (r = Fail (errors_New "unsupported tally mode")
     ↔ IsDiffMode opts = true).
Proof.
  split_and!.
  - apply IsDiffMode_true.
  - unfold IsDiffMode. by intros [-> | ->].
  - unfold TallyCommitsApplyMerge.apply. by destruct (IsDiffMode opts).
  - intros r h'. unfold TallyCommitsApplyMerge.apply.
    destruct (IsDiffMode opts).
    + by intros [= <- <-].
    + intros Hr. split; [|done]. intros ->.
      by destruct (tallyCommits_Fail _ _ _ _ _ _ _ Hr).
Qed.

(** The guard answers before the first element is looked at: here the first
    element reports an error of its own, which is not the one returned. *)
Example apply_rejects_before_ranging :
  TallyCommitsApplyMerge.apply ex_wtree true (by_email FilesMode)
    ((ex_c1, Some (errors_New "unexpected EOF")) :: ex_twice) ∅
  = Some (Fail (errors_New "unsupported tally mode"), ∅).
Proof. done. Qed.

(** ** The panic of [SortKey] *)

Lemma TallyCommits_sorts (commits : Seq2) (w : gmap string bool)
    (allow : bool) (opts : TallyOpts) (h h' : heap) tallies :
  valid_mode (Mode opts) →
  tallyCommits commits w allow opts h = Some (Ok tallies, h') →
  ∃ sorted, sortTallies tallies (Mode opts) = Some sorted ∧
            TallyCommits commits w allow opts h = Some (Ok sorted, h').
Proof.
  intros Hmode Hok. unfold TallyCommits. munfold. rewrite Hok.
  destruct (sortTallies_sorted tallies (Mode opts) Hmode)
    as (sorted & Hs & _).
  exists sorted. by rewrite Hs.
Qed.



(** Outside the enumeration the panic is reached as soon as two tallies are
    compared; nothing before [SortKey] looks at the mode. *)
Example SortKey_panic_reached :
  TallyCommits ex_twice ex_wtree true (by_email 7) ∅ = None ∧
  TallyCommits [(ex_c1, None)] ex_wtree true (by_email 7) ∅ ≠ None.
Proof. split; by vm_compute. Qed.

(** ** The merge of the simple pipeline *)

Module MergeFacts.
Import TallyCommitsApplyMerge.

Lemma merge_lookup (a b : gmap string Tally) (k : string) :
  merge a b !! k
  = match a !! k with
    | Some at' => Some (merged at' (index zeroTally b k))
    | None => b !! k
    end.
Proof.
  unfold merge. revert k.
  apply (map_fold_weak_ind (λ union a, ∀ k,
    union !! k = match a !! k with
                 | Some at' => Some (merged at' (index zeroTally b k))
                 | None => b !! k
                 end)).
  - intros k. by rewrite lookup_empty.
  - clear a. intros i x a union Hi IH k. unfold merge_entry.
    destruct (decide (i = k)) as [<-|Hne].
    + rewrite !lookup_insert_eq. unfold index. rewrite IH, Hi. done.
    + rewrite !lookup_insert_ne by done. apply IH.
Qed.

Lemma Tally_eq (x y : Tally) :
  same_identity x y → Commits x = Commits y →
  LastCommitTime x = LastCommitTime y → x = y.
Proof.
  destruct x, y. unfold same_identity. simpl.
  by intros (-> & -> & -> & -> & ->) -> ->.
Qed.

Lemma merged_assoc x y z : merged (merged x y) z = merged x (merged y z).
Proof.
  apply Tally_eq; simpl.
  - done.
  - apply IntFacts.add_assoc.
  - apply Max_assoc.
Qed.

Lemma merged_zero_r x :
  time.zero ≤ LastCommitTime x → Int.in_range (Commits x) →
  merged x zeroTally = x.
Proof.
  intros Ht Hc. apply Tally_eq; simpl.
  - done.
  - rewrite IntFacts.add_0_r. by apply IntFacts.wrap64_id.
  - unfold timeutils.Max. lia.
Qed.

Lemma merged_zero_l_assoc x z :
  time.zero ≤ LastCommitTime x →
  merged (merged x zeroTally) z = merged x z.
Proof.
  intros Ht. apply Tally_eq; simpl.
  - done.
  - rewrite IntFacts.add_0_r. apply IntFacts.add_wrap64_l.
  - unfold timeutils.Max. lia.
Qed.

Lemma merge_assoc (a b c : gmap string Tally) :
  partial_ok a → merge (merge a b) c = merge a (merge b c).
Proof.
  intros Ha. apply map_eq. intros k. rewrite !merge_lookup.
  unfold index. rewrite !merge_lookup.
  destruct (a !! k) as [at'|] eqn:Hak; [|by destruct (b !! k)].
  destruct (b !! k) as [bt|]; simpl.
  - by rewrite merged_assoc.
  - f_equal. apply merged_zero_l_assoc. by apply (Ha k).
Qed.

(** [merge a b] and [merge b a] hold the same keys, and the same commit
    count and last-commit time at each of them. *)
Lemma merge_comm_counts (a b : gmap string Tally) (k : string) :
  partial_ok a → partial_ok b →
  Commits <$> merge a b !! k = Commits <$> merge b a !! k ∧
  LastCommitTime <$> merge a b !! k = LastCommitTime <$> merge b a !! k.
Proof.
  intros Ha Hb. rewrite !merge_lookup. unfold index.
  destruct (a !! k) as [at'|] eqn:Hak, (b !! k) as [bt|] eqn:Hbk.
  - simpl. by rewrite IntFacts.add_comm, Max_comm.
  - destruct (Ha k at' Hak). by rewrite merged_zero_r.
  - destruct (Hb k bt Hbk). by rewrite merged_zero_r.
  - done.
Qed.

Lemma merge_comm (a b : gmap string Tally) :
  partial_ok a → partial_ok b →
  (∀ k at' bt, a !! k = Some at' → b !! k = Some bt → same_identity at' bt) →
  merge a b = merge b a.
Proof.
  intros Ha Hb Hsame. apply map_eq. intros k. rewrite !merge_lookup.
  unfold index.
  destruct (a !! k) as [at'|] eqn:Hak, (b !! k) as [bt|] eqn:Hbk.
  - f_equal. apply Tally_eq; simpl.
    + exact (Hsame k at' bt Hak Hbk).
    + apply IntFacts.add_comm.
    + apply Max_comm.
  - destruct (Ha k at' Hak). by rewrite merged_zero_r.
  - destruct (Hb k bt Hbk). by rewrite merged_zero_r.
  - done.
Qed.

End MergeFacts.

(** The partials of the simple strategy are as [partial_ok] asks. *)
Lemma simple_partial_ok (commits : Seq2) (w : gmap string bool)
    (opts : TallyOpts) (h h' : heap) (m : gmap string Tally) :
  TallyCommitsApplyMerge.apply w true opts commits h = Some (Ok m, h') →
  partial_ok m.
Proof.
  unfold TallyCommitsApplyMerge.apply.
  destruct (IsDiffMode opts) eqn:Hmode; [done|].
  destruct (error_free_or_not commits)
    as [Hok|(pre & c & e & suf & -> & Hpre)].
  - rewrite tallyCommits_simple by done. intros [= <- <-] k t Hk.
    rewrite tally_step_lookup in Hk. case_decide; [done|].
    injection Hk as <-. split.
    + rewrite tally_of_Commits. apply IntFacts.wrap64_in_range.
    + apply tally_of_time_ge.
  - by rewrite tallyCommits_simple_err.
Qed.

Lemma ex_partial1_applied :
  TallyCommitsApplyMerge.apply ex_wtree true (by_email CommitMode) ex_shard1 ∅
  = Some (Ok ex_partial1, ∅).
Proof. by vm_compute. Qed.

Lemma ex_partial2_applied :
  TallyCommitsApplyMerge.apply ex_wtree true (by_email CommitMode) ex_shard2 ∅
  = Some (Ok ex_partial2, ∅).
Proof. by vm_compute. Qed.

(** C5, as stated, fails: on the partials of two disjoint shards of one
    sequence, [merge] is not commutative.  The author's name is that of the
    first argument. *)
Lemma merge_not_commutative :
  TallyCommitsApplyMerge.apply ex_wtree true (by_email CommitMode) ex_shard1 ∅
    = Some (Ok ex_partial1, ∅) ∧
  TallyCommitsApplyMerge.apply ex_wtree true (by_email CommitMode) ex_shard2 ∅
    = Some (Ok ex_partial2, ∅) ∧
  TallyCommitsApplyMerge.merge ex_partial1 ex_partial2
    ≠ TallyCommitsApplyMerge.merge ex_partial2 ex_partial1.
Proof.
  split_and!; [by vm_compute..|]. intros Heq.
  apply (f_equal (λ m, AuthorName <$> m !! "ada@example.org")) in Heq.
  by vm_compute in Heq.
Qed.

(** [Add] on a receiver that has no map yet: one order panics, the other
    returns. *)
Example Add_nil_receiver :
  Add {| commitset := None; added := 0; removed := 0;
         lastCommitTime := time.zero; numTallied := 0 |} pure_b pure_h = None
  ∧ Add pure_b {| commitset := None; added := 0; removed := 0;
                  lastCommitTime := time.zero; numTallied := 0 |} pure_h
    ≠ None.
Proof. split; by vm_compute. Qed.

(** C5 (amended).  [Add] is commutative and associative as values on
    partials whose commit set exists.  The [merge] of the simple pipeline is
    associative on maps of tallies as [apply] returns them; [merge a b] and
    [merge b a] have the same keys and, at every key, the same commit count
    and last-commit time; they are the same map when [a] and [b] agree, at
    every key they share, on the author's name and e-mail and on the line
    and file counts, which [merge] takes from its first argument alone. *)
Theorem combining_algebra (x y z : intermediateTally) (lx ly : loc)
    (h : heap) (a b c : gmap string Tally)
    (Hx : commitset x = Some lx) (Hy : commitset y = Some ly)
    (Ha : partial_ok a) (Hb : partial_ok b) :
  (∃ r1 h1 r2 h2,
     Add x y h = Some (r1, h1) ∧ Add y x h = Some (r2, h2) ∧
     view h1 r1 = view h2 r2) ∧
  (∃ r1 h1 r2 h2,
     (xy ← Add x y; Add xy z) h = Some (r1, h1) ∧
     (yz ← Add y z; Add x yz) h = Some (r2, h2) ∧
     view h1 r1 = view h2 r2) ∧
  TallyCommitsApplyMerge.merge (TallyCommitsApplyMerge.merge a b) c
    = TallyCommitsApplyMerge.merge a (TallyCommitsApplyMerge.merge b c) ∧
  (∀ k,
     Commits <$> TallyCommitsApplyMerge.merge a b !! k
       = Commits <$> TallyCommitsApplyMerge.merge b a !! k ∧
     LastCommitTime <$> TallyCommitsApplyMerge.merge a b !! k
       = LastCommitTime <$> TallyCommitsApplyMerge.merge b a !! k) ∧
  ((∀ k at' bt, a !! k = Some at' → b !! k = Some bt →
                same_identity at' bt) →
   TallyCommitsApplyMerge.merge a b = TallyCommitsApplyMerge.merge b a).
Proof.
  split_and!.
  - by eapply Add_comm.
  - destruct (Add_assoc x y z lx ly h Hx Hy)
      as (r1 & h1 & r2 & h2 & E1 & E2 & V & _).
    by exists r1, h1, r2, h2.
  - by apply MergeFacts.merge_assoc.
  - intros k. by apply MergeFacts.merge_comm_counts.
  - by apply MergeFacts.merge_comm.
Qed.

Lemma combining_algebra_witness :
  commitset ex_x = Some 1%positive ∧ commitset ex_y = Some 2%positive ∧
  partial_ok ex_partial1 ∧ partial_ok ex_partial2 ∧
  (∃ r1 h1 r2 h2,
     Add ex_x ex_y ex_heap = Some (r1, h1) ∧
     Add ex_y ex_x ex_heap = Some (r2, h2) ∧
     view h1 r1 = view h2 r2) ∧
  (∃ r1 h1 r2 h2,
     (xy ← Add ex_x ex_y; Add xy ex_z) ex_heap = Some (r1, h1) ∧
     (yz ← Add ex_y ex_z; Add ex_x yz) ex_heap = Some (r2, h2) ∧
     view h1 r1 = view h2 r2) ∧
  TallyCommitsApplyMerge.merge
    (TallyCommitsApplyMerge.merge ex_partial1 ex_partial2) ex_partial1
    = TallyCommitsApplyMerge.merge ex_partial1
        (TallyCommitsApplyMerge.merge ex_partial2 ex_partial1) ∧
  (∀ k,
     Commits <$> TallyCommitsApplyMerge.merge ex_partial1 ex_partial2 !! k
       = Commits <$> TallyCommitsApplyMerge.merge ex_partial2 ex_partial1 !! k
     ∧
     LastCommitTime
       <$> TallyCommitsApplyMerge.merge ex_partial1 ex_partial2 !! k
       = LastCommitTime
           <$> TallyCommitsApplyMerge.merge ex_partial2 ex_partial1 !! k) ∧
  ((∀ k at' bt, ex_partial1 !! k = Some at' → ex_partial2 !! k = Some bt →
                same_identity at' bt) →
   TallyCommitsApplyMerge.merge ex_partial1 ex_partial2
   = TallyCommitsApplyMerge.merge ex_partial2 ex_partial1).
Proof.
  pose proof (simple_partial_ok _ _ _ _ _ _ ex_partial1_applied) as H1.
  pose proof (simple_partial_ok _ _ _ _ _ _ ex_partial2_applied) as H2.
  split_and!; [reflexivity|reflexivity|exact H1|exact H2|..];
    apply (combining_algebra ex_x ex_y ex_z 1%positive 2%positive ex_heap
             ex_partial1 ex_partial2 ex_partial1 eq_refl eq_refl H1 H2).
Defined.

(** ** Map-reduce equivalence *)


(** What the pipeline and the engine return on these two shards. *)
Example pipeline_differs_values :
  (fst <$> run_pipeline ex_wtree true (by_email CommitMode)
             (Merge (Shard ex_shard1) (Shard ex_shard2)) ∅)
  = Some (Ok [ {| AuthorName := "Ada"; AuthorEmail := "ada@example.org";
                  Commits := 2; LinesAdded := 0; LinesRemoved := 0;
                  FileCount := 0; LastCommitTime := 1750000000 * 10 ^ 9 |} ])
  ∧
  (fst <$> TallyCommits (ex_shard1 ++ ex_shard2) ex_wtree true
             (by_email CommitMode) ∅)
  = Some (Ok [ {| AuthorName := "Ada Lovelace";
                  AuthorEmail := "ada@example.org";
                  Commits := 2; LinesAdded := 0; LinesRemoved := 0;
                  FileCount := 0; LastCommitTime := 1750000000 * 10 ^ 9 |} ]).
Proof. split; by vm_compute. Qed.

(** With the working-tree filter on, the simple pipeline takes the
    path-aware strategy in each shard ([tallyByPaths] as modelled), and
    [merge] keeps the lines of its first argument only. *)
Example pipeline_differs_filtered :
  (match run_pipeline ex_wtree false (by_email CommitMode)
           (Merge (Shard ex_shard1) (Shard ex_shard2)) ∅ with
   | Some (Ok l, _) => LinesAdded <$> l
   | _ => []
   end) = [15]
  ∧
  (match TallyCommits (ex_shard1 ++ ex_shard2) ex_wtree false
           (by_email CommitMode) ∅ with
   | Some (Ok l, _) => LinesAdded <$> l
   | _ => []
   end) = [16].
Proof. split; by vm_compute. Qed.

Section equivalence.
Context (opts : TallyOpts).

Lemma latest_ge cs : time.zero ≤ latest cs.
Proof. induction cs as [|c cs IH]; simpl; lia. Qed.

Lemma latest_app cs1 cs2 : latest (cs1 ++ cs2) = Z.max (latest cs1) (latest cs2).
Proof.
  induction cs1 as [|c cs1 IH]; simpl.
  - pose proof (latest_ge cs2). lia.
  - rewrite IH. lia.
Qed.

Lemma latest_perm cs1 cs2 : cs1 ≡ₚ cs2 → latest cs1 = latest cs2.
Proof.
  induction 1 as [|c cs1 cs2 _ IH|c c' cs|cs1 cs2 cs3 _ IH1 _ IH2]; simpl.
  - done.
  - by rewrite IH.
  - lia.
  - by rewrite IH1.
Qed.

Lemma tally_of_time cs : LastCommitTime (tally_of cs) = latest cs.
Proof.
  induction cs as [|c cs IH] using rev_ind; [done|].
  rewrite tally_of_snoc, latest_app. simpl. rewrite IH.
  unfold timeutils.Max, time.zero. pose proof (latest_ge cs).
  unfold time.zero in *. lia.
Qed.








End equivalence.





(** * Further properties of the code *)

(** ** The comparison *)

Lemma Compare_value a b mode c :
  Compare a b mode = Some c →
  ∃ ka kb, SortKey a mode = Some ka ∧ SortKey b mode = Some kb ∧
    c = (if ka <? kb then -1 else if kb <? ka then 1
         else time.Compare (LastCommitTime a) (LastCommitTime b)).
Proof.
  unfold Compare.
  destruct (SortKey a mode) as [ka|]; [|done].
  destruct (SortKey b mode) as [kb|]; [|done]. simpl. intros Hc.
  exists ka, kb. split_and!; [done..|]. by repeat case_match; simplify_eq.
Qed.

Ltac ltb_cases :=
  repeat match goal with
         | |- context [?x <? ?y] => destruct (Z.ltb_spec x y)
         | H : context [?x <? ?y] |- _ => destruct (Z.ltb_spec x y)
         end.

Lemma three_way_cases (ka kb ta tb c : Z) :
  c = (if ka <? kb then -1 else if kb <? ka then 1
       else time.Compare ta tb) →
  (c = -1 ∨ c = 0 ∨ c = 1) ∧
  (if kb <? ka then -1 else if ka <? kb then 1 else time.Compare tb ta)
  = - c ∧
  (c = 0 ↔ ka = kb ∧ ta = tb) ∧
  (c ≤ 0 ↔ ka < kb ∨ (ka = kb ∧ ta ≤ tb)) ∧
  (c < 0 ↔ ka < kb ∨ (ka = kb ∧ ta < tb)).
Proof. intros ->. unfold time.Compare. ltb_cases; lia. Qed.

(** X1.  [Compare] is a three-way comparison: it returns -1, 0 or +1, it panics
    only where [SortKey] does, swapping the arguments negates the result,
    and 0 means the same metric and the same instant of the last commit. *)
Theorem Compare_three_way (a b : Tally) (mode : TallyMode) :
  (Compare a b mode = None ↔ ¬ valid_mode mode) ∧
  ∀ c, Compare a b mode = Some c →
    (c = -1 ∨ c = 0 ∨ c = 1) ∧
    Compare b a mode = Some (- c) ∧
    (c = 0 ↔ SortKey a mode = SortKey b mode ∧
             LastCommitTime a = LastCommitTime b).
Proof.
  split.
  - split.
    + intros Hnone Hvalid.
      destruct (Compare_valid a b mode Hvalid) as [c Hc]. congruence.
    + intros Hinvalid. unfold Compare.
      by rewrite (SortKey_panics a mode Hinvalid).
  - intros c Hc.
    destruct (Compare_value _ _ _ _ Hc) as (ka & kb & Ha & Hb & Ec).
    destruct (three_way_cases _ _ _ _ _ Ec) as (Hrange & Hswap & Hzero & _).
    split_and!; [done| |].
    + unfold Compare. rewrite Ha, Hb. simpl. rewrite <- Hswap.
      by repeat case_match.
    + rewrite Ha, Hb, Hzero. split; [by intros [-> ->]|].
      by intros [[= ->] ->].
Qed.

(** X2.  [Compare] orders consistently: if [a] is not above [b] and [b] is not
    above [c] then [a] is not above [c], which is what sorting with it
    relies on. *)
Theorem Compare_transitive (a b c : Tally) (mode : TallyMode) (x y : Z)
    (Hab : Compare a b mode = Some x) (Hbc : Compare b c mode = Some y)
    (Hx : x ≤ 0) (Hy : y ≤ 0) :
  ∃ z, Compare a c mode = Some z ∧ z ≤ 0 ∧ (x < 0 ∨ y < 0 → z < 0).
Proof.
  destruct (Compare_value _ _ _ _ Hab) as (ka & kb & Ha & Hb & Ex).
  destruct (Compare_value _ _ _ _ Hbc) as (kb' & kc & Hb' & Hc & Ey).
  rewrite Hb in Hb'. injection Hb' as <-.
  destruct (three_way_cases _ _ _ _ _ Ex) as (_ & _ & _ & Hab1 & Hab2).
  destruct (three_way_cases _ _ _ _ _ Ey) as (_ & _ & _ & Hbc1 & Hbc2).
  remember (if ka <? kc then -1 else if kc <? ka then 1
            else time.Compare (LastCommitTime a) (LastCommitTime c))
    as z eqn:Ez.
  destruct (three_way_cases _ _ _ _ _ Ez) as (_ & _ & _ & Hac1 & Hac2).
  exists z. split.
  - unfold Compare. rewrite Ha, Hc. simpl. rewrite Ez.
    by repeat case_match.
  - clear Ex Ey Ez Hab Hbc. lia.
Qed.

Lemma Compare_transitive_witness :
  Compare ex_ada ex_edsger CommitMode = Some (-1) ∧
  Compare ex_edsger ex_grace CommitMode = Some (-1) ∧
  ∃ z, Compare ex_ada ex_grace CommitMode = Some z ∧ z ≤ 0 ∧
       (-1 < 0 ∨ -1 < 0 → z < 0).
Proof.
  assert (Compare ex_ada ex_edsger CommitMode = Some (-1)) as Hab
    by reflexivity.
  assert (Compare ex_edsger ex_grace CommitMode = Some (-1)) as Hbc
    by reflexivity.
  split_and!; [exact Hab|exact Hbc|].
  apply (Compare_transitive ex_ada ex_edsger ex_grace CommitMode (-1) (-1)
           Hab Hbc); lia.
Defined.

(** X3.  In [LastModifiedMode] the comparison is that of the instants of the
    last commits, also for two commits within the same second, where
    [SortKey] does not tell them apart. *)
Theorem Compare_LastModifiedMode (a b : Tally) :
  Compare a b LastModifiedMode
  = Some (time.Compare (LastCommitTime a) (LastCommitTime b)).
Proof.
  unfold Compare, SortKey, LastModifiedMode, CommitMode, FilesMode, LinesMode.
  simpl. unfold time.Unix, time.Compare.
  pose proof (Z.div_le_mono (LastCommitTime a) (LastCommitTime b) (10 ^ 9)).
  pose proof (Z.div_le_mono (LastCommitTime b) (LastCommitTime a) (10 ^ 9)).
  ltb_cases; try done; lia.
Qed.

(** ** Sorting outside the enumeration *)

Lemma SortedFunc_panicking {A : Type} (cmp : A → A → option Z) (l : list A) :
  (∀ x y, cmp x y = None) →
  SortedFunc cmp l = if decide (2 ≤ length l)%nat then None else Some l.
Proof.
  intros Hcmp. induction l as [|x [|y l] IH]; [done..|].
  change (SortedFunc cmp (x :: y :: l))
    with (SortedFunc cmp (y :: l) ≫= insert_by cmp x).
  rewrite IH. rewrite (decide_True (P := (2 ≤ length (x :: y :: l))%nat))
    by (simpl; lia).
  case_decide; [done|]. simpl. by rewrite Hcmp.
Qed.

(** X4.  With a mode outside the enumeration [sortTallies] panics exactly when
    the map holds at least two tallies: a map with no tally or one is
    returned as it is, no comparison being made. *)
Theorem sortTallies_unrecognized_mode (tallies : gmap string Tally)
    (mode : TallyMode) (Hmode : ¬ valid_mode mode) :
  sortTallies tallies mode
  = if decide (2 ≤ size tallies)%nat then None else Some (Values tallies).
Proof.
  unfold sortTallies. rewrite SortedFunc_panicking.
  - unfold Values. rewrite length_fmap, length_map_to_list. done.
  - intros a b. unfold Compare. by rewrite (SortKey_panics a mode Hmode).
Qed.

Lemma sortTallies_unrecognized_mode_witness :
  ¬ valid_mode 7 ∧
  sortTallies ex_ranked 7
  = if decide (2 ≤ size ex_ranked)%nat then None else Some (Values ex_ranked).
Proof.
  assert (¬ valid_mode 7) as Hmode by (by intros [?|[?|[?|?]]]).
  split; [exact Hmode|].
  exact (sortTallies_unrecognized_mode ex_ranked 7 Hmode).
Defined.

(** ** New partial tallies *)


(** ** Commit counts under [Add] *)

(** X6.  The commit count of [a.Add(b)] is at least that of either operand and
    at most their sum; it is the sum exactly when the two sets share no
    commit. *)
Theorem Add_Commits_bounds (a b : intermediateTally) (l : loc) (h : heap)
    (Ha : commitset a = Some l) :
  ∃ r h' na nb nr,
    Add a b h = Some (r, h') ∧
    intermediateTally_Commits a h = Some (na, h) ∧
    intermediateTally_Commits b h = Some (nb, h) ∧
    intermediateTally_Commits r h' = Some (nr, h') ∧
    na ≤ nr ∧ nb ≤ nr ∧ nr ≤ na + nb ∧
    (nr = na + nb ↔ commits_in h a ## commits_in h b).
Proof.
  destruct (Add_Some a b l h Ha) as (h' & E & _ & _ & Hd).
  eexists _, h', _, _, _. split; [exact E|].
  unfold intermediateTally_Commits, map_len. split_and!; [done..| | | |].
  all: rewrite <- !size_dom; simpl commitset; rewrite Hd.
  all: fold (commits_in h a) (commits_in h b).
  all: pose proof (size_union_alt (commits_in h a) (commits_in h b)) as Hsz.
  all: assert (commits_in h b ∖ commits_in h a ⊆ commits_in h b) as Hsub
         by set_solver.
  all: pose proof (subseteq_size _ _ Hsub) as Hle.
  - lia.
  - assert (commits_in h b ⊆ commits_in h a ∪ commits_in h b) as Hsub'
      by set_solver.
    pose proof (subseteq_size _ _ Hsub'). lia.
  - lia.
  - split.
    + intros Hsum.
      assert (commits_in h b ∖ commits_in h a ≡ commits_in h b) as Hsame.
      { apply set_subseteq_size_equiv; [done|lia]. }
      set_solver.
    + intros Hdisj. rewrite size_union by done. lia.
Qed.

Lemma Add_Commits_bounds_witness :
  commitset ex_x = Some 1%positive ∧
  ∃ r h' na nb nr,
    Add ex_x ex_y ex_heap = Some (r, h') ∧
    intermediateTally_Commits ex_x ex_heap = Some (na, ex_heap) ∧
    intermediateTally_Commits ex_y ex_heap = Some (nb, ex_heap) ∧
    intermediateTally_Commits r h' = Some (nr, h') ∧
    na ≤ nr ∧ nb ≤ nr ∧ nr ≤ na + nb ∧
    (nr = na + nb ↔ commits_in ex_heap ex_x ## commits_in ex_heap ex_y).
Proof.
  split; [reflexivity|].
  exact (Add_Commits_bounds ex_x ex_y 1%positive ex_heap eq_refl).
Defined.

(** X7.  [Add] on a receiver whose map is [nil] (the zero value of the struct):
    it panics exactly when the argument holds a commit; with an argument
    that holds none it returns the sums on a [nil] map and writes nothing. *)
Theorem Add_nil_receiver_panics (a b : intermediateTally) (h : heap)
    (Ha : commitset a = None) :
  (Add a b h = None ↔ commits_in h b ≠ ∅) ∧
  (commits_in h b = ∅ →
   Add a b h
   = Some ({| commitset := None;
              added := Int.add (added a) (added b);
              removed := Int.add (removed a) (removed b);
              lastCommitTime :=
                timeutils.Max (lastCommitTime a) (lastCommitTime b);
              numTallied := Int.add (numTallied a) (numTallied b) |}, h)).
Proof.
  assert (commits_in h b = ∅ →
          (map_to_list (deref h (commitset b))).*1 = []) as Hkeys.
  { unfold commits_in. intros Hb. apply dom_empty_inv_L in Hb.
    by rewrite Hb, map_to_list_empty. }
  split.
  - split.
    + intros Hnone Hb. unfold Add, map_keys in Hnone. munfold.
      rewrite Ha, (Hkeys Hb) in Hnone. done.
    + by apply Add_nil.
  - intros Hb. unfold Add, map_keys. munfold. by rewrite Ha, (Hkeys Hb).
Qed.

Lemma Add_nil_receiver_panics_witness :
  commitset {| commitset := None; added := 0; removed := 0;
               lastCommitTime := time.zero; numTallied := 0 |} = None ∧
  (Add {| commitset := None; added := 0; removed := 0;
          lastCommitTime := time.zero; numTallied := 0 |} pure_b pure_h = None
   ↔ commits_in pure_h pure_b ≠ ∅) ∧
  (commits_in pure_h pure_b = ∅ →
   Add {| commitset := None; added := 0; removed := 0;
          lastCommitTime := time.zero; numTallied := 0 |} pure_b pure_h
   = Some ({| commitset := None;
              added := Int.add 0 (added pure_b);
              removed := Int.add 0 (removed pure_b);
              lastCommitTime :=
                timeutils.Max time.zero (lastCommitTime pure_b);
              numTallied := Int.add 0 (numTallied pure_b) |}, pure_h)).
Proof.
  split; [reflexivity|].
  exact (Add_nil_receiver_panics
           {| commitset := None; added := 0; removed := 0;
              lastCommitTime := time.zero; numTallied := 0 |}
           pure_b pure_h eq_refl).
Defined.

(** ** The simple strategy, author by author *)

Lemma tally_of_last cs c :
  last cs = Some c →
  AuthorName (tally_of cs) = git.AuthorName c ∧
  AuthorEmail (tally_of cs) = git.AuthorEmail c.
Proof.
  destruct cs as [|c0 cs] using rev_ind; [done|].
  rewrite last_snoc. intros [= ->]. by rewrite tally_of_snoc.
Qed.

Lemma latest_bound cs c : c ∈ cs → git.Date c ≤ latest cs.
Proof.
  induction cs as [|c' cs IH]; [by intros ?%elem_of_nil|].
  intros [->|Hc]%elem_of_cons; simpl; [lia|]. specialize (IH Hc). lia.
Qed.

Lemma latest_attained cs :
  latest cs = time.zero ∨ ∃ c, c ∈ cs ∧ git.Date c = latest cs.
Proof.
  induction cs as [|c cs [IH|(c' & Hc' & IH)]]; simpl.
  - by left.
  - destruct (Z.max_spec (git.Date c) (latest cs)) as [[_ ->]|[_ ->]].
    + by left.
    + right. exists c. split; [left|done].
  - destruct (Z.max_spec (git.Date c) (latest cs)) as [[_ ->]|[_ ->]].
    + right. exists c'. split; [by right|done].
    + right. exists c. split; [left|done].
Qed.

(** X8.  In the simple strategy, on a sequence without errors, an author key has
    a tally exactly when some commit of the sequence has that key; the name
    and e-mail of the tally are those of the last such commit; its time is
    the latest date among these commits, or the zero time when all of them
    are earlier than that. *)
Theorem tallyCommits_simple_identity (commits : Seq2)
    (wtreefiles : gmap string bool) (opts : TallyOpts) (h : heap)
    (Hmode : IsDiffMode opts = false) (Hok : error_free commits) :
  ∃ authorTallies,
    tallyCommits commits wtreefiles true opts h = Some (Ok authorTallies, h) ∧
    ∀ key,
      let mine := commits_by opts key commits.*1 in
      (authorTallies !! key = None ↔ mine = []) ∧
      ∀ t, authorTallies !! key = Some t →
        (∃ c, last mine = Some c ∧
              AuthorName t = git.AuthorName c ∧
              AuthorEmail t = git.AuthorEmail c) ∧
        (∀ c, c ∈ mine → git.Date c ≤ LastCommitTime t) ∧
        time.zero ≤ LastCommitTime t ∧
        (LastCommitTime t = time.zero ∨
         ∃ c, c ∈ mine ∧ git.Date c = LastCommitTime t).
Proof.
  eexists. split; [by apply tallyCommits_simple|].
  intros key mine. rewrite tally_step_lookup. fold mine.
  case_decide as Hnil.
  - split; [done|]. by intros t.
  - split; [by split|]. intros t [= <-].
    rewrite tally_of_time. split_and!.
    + destruct (last mine) as [c|] eqn:Hlast.
      * exists c. split; [done|]. by apply tally_of_last.
      * by apply last_None in Hlast.
    + apply latest_bound.
    + apply latest_ge.
    + apply latest_attained.
Qed.

Lemma tallyCommits_simple_identity_witness :
  IsDiffMode (by_email CommitMode) = false ∧ error_free ex_twice ∧
  ∃ authorTallies,
    tallyCommits ex_twice ex_wtree true (by_email CommitMode) ∅
      = Some (Ok authorTallies, ∅) ∧
    ∀ key,
      let mine := commits_by (by_email CommitMode) key ex_twice.*1 in
      (authorTallies !! key = None ↔ mine = []) ∧
      ∀ t, authorTallies !! key = Some t →
        (∃ c, last mine = Some c ∧
              AuthorName t = git.AuthorName c ∧
              AuthorEmail t = git.AuthorEmail c) ∧
        (∀ c, c ∈ mine → git.Date c ≤ LastCommitTime t) ∧
        time.zero ≤ LastCommitTime t ∧
        (LastCommitTime t = time.zero ∨
         ∃ c, c ∈ mine ∧ git.Date c = LastCommitTime t).
Proof.
  assert (IsDiffMode (by_email CommitMode) = false) as Hmode by reflexivity.
  assert (error_free ex_twice) as Hok by (by repeat constructor).
  split_and!; [exact Hmode|exact Hok|].
  exact (tallyCommits_simple_identity ex_twice ex_wtree (by_email CommitMode)
           ∅ Hmode Hok).
Defined.

(** X9.  In the simple strategy [tallyCommits] never panics and never writes the
    store; it returns a map exactly when no element of the sequence reports
    an error. *)
Theorem tallyCommits_simple_returns (commits : Seq2)
    (wtreefiles : gmap string bool) (opts : TallyOpts) (h : heap)
    (Hmode : IsDiffMode opts = false) :
  ∃ r,
    tallyCommits commits wtreefiles true opts h = Some (r, h) ∧
    ((∃ authorTallies, r = Ok authorTallies) ↔ error_free commits).
Proof.
  destruct (error_free_or_not commits)
    as [Hok|(pre & c & e & suf & -> & Hpre)].
  - eexists. split; [by apply tallyCommits_simple|]. split; [done|eauto].
  - eexists. split; [by apply tallyCommits_simple_err|].
    split; [by intros [? ?]|].
    intros Hfree. apply Forall_app in Hfree as [_ Hfree].
    apply Forall_cons in Hfree as [Hfree _]. done.
Qed.

Lemma tallyCommits_simple_returns_witness :
  IsDiffMode (by_email LastModifiedMode) = false ∧
  ∃ r,
    tallyCommits ex_failing ex_wtree true (by_email LastModifiedMode) ∅
      = Some (r, ∅) ∧
    ((∃ authorTallies, r = Ok authorTallies) ↔ error_free ex_failing).
Proof.
  assert (IsDiffMode (by_email LastModifiedMode) = false) as Hmode
    by reflexivity.
  split; [exact Hmode|].
  exact (tallyCommits_simple_returns ex_failing ex_wtree
           (by_email LastModifiedMode) ∅ Hmode).
Defined.

(** X10.  The order in which the commits are delivered changes neither the
    commit count nor the last-commit time of any author in the simple
    strategy (only the spelling of the name can depend on it). *)
Theorem tallyCommits_simple_order (commits commits' : Seq2)
    (wtreefiles : gmap string bool) (opts : TallyOpts) (h : heap)
    (Hmode : IsDiffMode opts = false) (Hok : error_free commits)
    (Hperm : commits ≡ₚ commits') :
  ∃ authorTallies authorTallies',
    tallyCommits commits wtreefiles true opts h
      = Some (Ok authorTallies, h) ∧
    tallyCommits commits' wtreefiles true opts h
      = Some (Ok authorTallies', h) ∧
    ∀ key,
      Commits <$> authorTallies !! key = Commits <$> authorTallies' !! key ∧
      LastCommitTime <$> authorTallies !! key
        = LastCommitTime <$> authorTallies' !! key.
Proof.
  assert (error_free commits') as Hok'.
  { unfold error_free in *. by rewrite <- Hperm. }
  eexists _, _. split_and!; [by apply tallyCommits_simple..|].
  intros key. rewrite !tally_step_lookup.
  assert (commits_by opts key commits.*1 ≡ₚ commits_by opts key commits'.*1)
    as Hmine.
  { unfold commits_by. by rewrite Hperm. }
  destruct (decide (commits_by opts key commits.*1 = [])) as [E|E].
  - rewrite E in Hmine. apply Permutation_nil_l in Hmine.
    rewrite <- Hmine. by rewrite decide_True.
  - rewrite decide_False.
    2:{ intros E'. rewrite E' in Hmine. by apply Permutation_nil_r in Hmine. }
    simpl. rewrite !tally_of_Commits, !tally_of_time.
    by rewrite (latest_perm _ _ Hmine), (Permutation_length Hmine).
Qed.

Lemma tallyCommits_simple_order_witness :
  IsDiffMode (by_email CommitMode) = false ∧ error_free ex_twice ∧
  ex_twice ≡ₚ [(ex_c2, None); (ex_c1, None); (ex_c1, None)] ∧
  ∃ authorTallies authorTallies',
    tallyCommits ex_twice ex_wtree true (by_email CommitMode) ∅
      = Some (Ok authorTallies, ∅) ∧
    tallyCommits [(ex_c2, None); (ex_c1, None); (ex_c1, None)] ex_wtree true
      (by_email CommitMode) ∅
      = Some (Ok authorTallies', ∅) ∧
    ∀ key,
      Commits <$> authorTallies !! key = Commits <$> authorTallies' !! key ∧
      LastCommitTime <$> authorTallies !! key
        = LastCommitTime <$> authorTallies' !! key.
Proof.
  assert (IsDiffMode (by_email CommitMode) = false) as Hmode by reflexivity.
  assert (error_free ex_twice) as Hok by (by repeat constructor).
  assert (ex_twice ≡ₚ [(ex_c2, None); (ex_c1, None); (ex_c1, None)]) as Hperm
    by apply Permutation_swap.
  split_and!; [exact Hmode|exact Hok|exact Hperm|].
  exact (tallyCommits_simple_order ex_twice _ ex_wtree (by_email CommitMode)
           ∅ Hmode Hok Hperm).
Defined.

(** ** The simple strategy, all authors together *)

Lemma total_commits_perm l l' :
  l ≡ₚ l' → total_commits l = total_commits l'.
Proof.
  unfold total_commits.
  induction 1 as [|x l l' _ IH|x y l|l1 l2 l3 _ IH1 _ IH2]; csimpl.
  - done.
  - by rewrite IH.
  - lia.
  - by rewrite IH1.
Qed.

Lemma total_commits_insert (m : gmap string Tally) k t :
  m !! k = None →
  total_commits (Values (<[k := t]> m)) = Commits t + total_commits (Values m).
Proof.
  intros Hk. unfold Values.
  rewrite (total_commits_perm _ ((k, t) :: map_to_list m).*2); [done|].
  by rewrite map_to_list_insert.
Qed.

Lemma total_commits_delete (m : gmap string Tally) k t :
  m !! k = Some t →
  total_commits (Values m) = Commits t + total_commits (Values (delete k m)).
Proof.
  intros Hk. unfold Values.
  rewrite <- (total_commits_perm ((k, t) :: map_to_list (delete k m)).*2);
    [done|].
  by rewrite map_to_list_delete.
Qed.

Lemma total_commits_simple (opts : TallyOpts) (cs : list git.Commit) :
  Z.of_nat (length cs) < 2 ^ 63 →
  total_commits (Values (foldl (tally_step opts) ∅ cs))
  = Z.of_nat (length cs).
Proof.
  induction cs as [|c cs IH] using rev_ind; intros Hlen.
  - done.
  - rewrite length_app in Hlen |- *. simpl in Hlen |- *.
    specialize (IH ltac:(lia)).
    assert (foldl (tally_step opts) ∅ (cs ++ [c]) !! Key opts c
            = Some (tally_of (commits_by opts (Key opts c) cs ++ [c])))
      as Hnew.
    { rewrite tally_step_lookup, commits_by_snoc.
      rewrite (decide_True (P := Key opts c = Key opts c)) by done.
      apply decide_False. intros Hnil.
      by apply app_eq_nil in Hnil as [_ ?]. }
    pose proof (tally_step_lookup opts cs (Key opts c)) as Hold.
    rewrite foldl_app in Hnew |- *. simpl in Hnew |- *.
    set (m := foldl (tally_step opts) ∅ cs) in *.
    assert (length (commits_by opts (Key opts c) cs) ≤ length cs)%nat
      as Hmine by apply length_filter.
    assert (Commits (tally_of (commits_by opts (Key opts c) cs ++ [c]))
            = Z.of_nat (length (commits_by opts (Key opts c) cs)) + 1)
      as Hcount.
    { rewrite tally_of_Commits, length_app. simpl.
      rewrite IntFacts.wrap64_id by (unfold Int.in_range; lia). lia. }
    unfold tally_step in Hnew |- *. simpl in Hnew |- *.
    rewrite lookup_insert_eq in Hnew. injection Hnew as Hnew.
    rewrite Hnew.
    case_decide as Hnil.
    + rewrite total_commits_insert by done. rewrite IH, Hcount, Hnil.
      simpl. lia.
    + rewrite <- insert_delete_eq.
      rewrite total_commits_insert by apply lookup_delete_eq.
      rewrite (total_commits_delete m _ _ Hold) in IH.
      rewrite tally_of_Commits in IH.
      rewrite IntFacts.wrap64_id in IH by (unfold Int.in_range; lia).
      rewrite Hcount. lia.
Qed.

Lemma simple_keys (opts : TallyOpts) (cs : list git.Commit) :
  dom (foldl (tally_step opts) ∅ cs) = author_keys opts cs.
Proof.
  apply set_eq. intros k. unfold author_keys.
  rewrite elem_of_dom, tally_step_lookup, elem_of_list_to_set,
    list_elem_of_fmap.
  case_decide as Hnil.
  - split; [by intros [? ?]|]. intros (c & -> & Hc).
    assert (c ∈ commits_by opts (Key opts c) cs) as Hin
      by by apply list_elem_of_filter.
    rewrite Hnil in Hin. by apply elem_of_nil in Hin.
  - split; [|by eexists]. intros _.
    destruct (commits_by opts k cs) as [|c mine] eqn:E; [done|].
    assert (c ∈ commits_by opts k cs) as Hin by (rewrite E; left).
    apply list_elem_of_filter in Hin as [Hk Hin]. by exists c.
Qed.

(** X11.  In the simple strategy, with an enumerated mode and a sequence without
    errors, [TallyCommits] returns one tally for each author key of the
    sequence, and the commit counts of the tallies add up to the length of
    the sequence: every element is counted for exactly one author. *)
Theorem TallyCommits_simple_totals (commits : Seq2)
    (wtreefiles : gmap string bool) (opts : TallyOpts) (h : heap)
    (Hdiff : IsDiffMode opts = false) (Hmode : valid_mode (Mode opts))
    (Hok : error_free commits)
    (Hlen : Z.of_nat (length commits) < 2 ^ 63) :
  ∃ sorted,
    TallyCommits commits wtreefiles true opts h = Some (Ok sorted, h) ∧
    length sorted = size (author_keys opts commits.*1) ∧
    total_commits sorted = Z.of_nat (length commits).
Proof.
  pose proof (tallyCommits_simple commits wtreefiles opts h Hdiff Hok) as Hm.
  destruct (TallyCommits_sorts _ _ _ _ _ _ _ Hmode Hm) as (sorted & Hs & Hr).
  exists sorted. split; [done|].
  pose proof (SortedFunc_perm _ _ _ Hs) as Hperm. split.
  - rewrite Hperm. unfold Values.
    rewrite length_fmap, length_map_to_list, <- size_dom. f_equal.
    apply simple_keys.
  - rewrite (total_commits_perm _ _ Hperm), total_commits_simple;
      rewrite length_fmap; done.
Qed.

Lemma TallyCommits_simple_totals_witness :
  IsDiffMode (by_email CommitMode) = false ∧
  valid_mode (Mode (by_email CommitMode)) ∧ error_free ex_twice ∧
  Z.of_nat (length ex_twice) < 2 ^ 63 ∧
  ∃ sorted,
    TallyCommits ex_twice ex_wtree true (by_email CommitMode) ∅
      = Some (Ok sorted, ∅) ∧
    length sorted = size (author_keys (by_email CommitMode) ex_twice.*1) ∧
    total_commits sorted = Z.of_nat (length ex_twice).
Proof.
  assert (IsDiffMode (by_email CommitMode) = false) as Hdiff by reflexivity.
  assert (valid_mode (Mode (by_email CommitMode))) as Hmode
    by (left; reflexivity).
  assert (error_free ex_twice) as Hok by (by repeat constructor).
  assert (Z.of_nat (length ex_twice) < 2 ^ 63) as Hlen by done.
  split_and!; [exact Hdiff|exact Hmode|exact Hok|exact Hlen|].
  exact (TallyCommits_simple_totals ex_twice ex_wtree (by_email CommitMode)
           ∅ Hdiff Hmode Hok Hlen).
Defined.

(** ** The empty sequence *)

(** X12.  On the empty sequence the engine returns the empty list and no error,
    in either strategy, for every mode (recognized or not) and every filter
    set, and leaves the store as it was. *)
Theorem TallyCommits_empty (wtreefiles : gmap string bool)
    (allowOutsideWorktree : bool) (opts : TallyOpts) (h : heap) :
  tallyCommits [] wtreefiles allowOutsideWorktree opts h = Some (Ok ∅, h) ∧
  TallyCommits [] wtreefiles allowOutsideWorktree opts h = Some (Ok [], h).
Proof.
  assert (tallyCommits [] wtreefiles allowOutsideWorktree opts h
          = Some (Ok ∅, h)) as Hm.
  { unfold tallyCommits.
    destruct (negb (IsDiffMode opts) && allowOutsideWorktree); [done|].
    unfold tallyByPaths, tallyByPaths_loop, sumOverPaths, range_map.
    munfold. simpl. by rewrite map_fold_empty. }
  split; [done|]. unfold TallyCommits. munfold. rewrite Hm.
  unfold sortTallies, Values. by rewrite map_to_list_empty.
Qed.

(** ** What the reduction leaves of its input *)

(** X13.  [sumOverPaths] reads the table of partials and does not change it:
    after the call every map the store held before holds what it held, so every
    partial of the table still has its commits, although [Add] writes into
    its receiver.  The result has one tally for each author of the table. *)
Theorem sumOverPaths_reads_only (authors : gmap string AuthorPaths)
    (wtreefiles : gmap string bool) (allowOutsideWorktree : bool) (h : heap)
    (Halloc : table_allocated h authors) :
  ∃ tallies h',
    sumOverPaths authors wtreefiles allowOutsideWorktree h
      = Some (tallies, h') ∧
    dom tallies = dom authors ∧
    (∀ l, is_Some (h !! l) → h' !! l = h !! l) ∧
    ∀ key author p t,
      authors !! key = Some author → paths author !! p = Some t →
      deref h' (commitset t) = deref h (commitset t).
Proof.
  destruct (sumOverPaths_spec wtreefiles allowOutsideWorktree h authors Halloc)
    as (tallies & h' & E & Hframe & Hlookup).
  exists tallies, h'. split_and!; [done| |done|].
  - apply set_eq. intros k. rewrite !elem_of_dom, Hlookup.
    apply fmap_is_Some.
  - intros key author p t Hkey Hp.
    destruct (commitset t) as [l|] eqn:Hl; [|done]. simpl.
    by rewrite Hframe by (by eapply Halloc).
Qed.

Lemma sumOverPaths_reads_only_witness :
  table_allocated ex_heap ex_authors ∧
  ∃ tallies h',
    sumOverPaths ex_authors ex_wtree false ex_heap = Some (tallies, h') ∧
    dom tallies = dom ex_authors ∧
    (∀ l, is_Some (ex_heap !! l) → h' !! l = ex_heap !! l) ∧
    ∀ key author p t,
      ex_authors !! key = Some author → paths author !! p = Some t →
      deref h' (commitset t) = deref ex_heap (commitset t).
Proof.
  split; [exact ex_allocated|].
  exact (sumOverPaths_reads_only ex_authors ex_wtree false ex_heap
           ex_allocated).
Defined.

Lemma qualifying_none w allow (ps : gmap string intermediateTally) :
  (∀ p t, ps !! p = Some t → ¬ (w !! p = Some true ∨ allow = true)) →
  qualifying w allow ps = ∅.
Proof.
  intros Hnone. apply map_eq. intros p. rewrite lookup_empty.
  apply eq_None_not_Some. intros [t Ht].
  apply qualifying_lookup in Ht as [Hp Hc]. by apply (Hnone p t).
Qed.

(** X14.  An author none of whose paths is counted (none is in the working-tree
    filter set, the override flag not being set) is not dropped: the author
    gets a tally with the name and e-mail, no commit, no lines, no file and
    the zero time. *)
Theorem sumOverPaths_uncounted_author (authors : gmap string AuthorPaths)
    (wtreefiles : gmap string bool) (allowOutsideWorktree : bool) (h : heap)
    (key : string) (author : AuthorPaths)
    (Halloc : table_allocated h authors)
    (Hkey : authors !! key = Some author)
    (Hnone : ∀ p t, paths author !! p = Some t →
               ¬ (wtreefiles !! p = Some true ∨ allowOutsideWorktree = true)) :
  ∃ tallies h',
    sumOverPaths authors wtreefiles allowOutsideWorktree h
      = Some (tallies, h') ∧
    tallies !! key
    = Some {| AuthorName := name author; AuthorEmail := email author;
              Commits := 0; LinesAdded := 0; LinesRemoved := 0;
              FileCount := 0; LastCommitTime := time.zero |}.
Proof.
  destruct (sumOverPaths_spec wtreefiles allowOutsideWorktree h authors Halloc)
    as (tallies & h' & E & _ & Hlookup).
  exists tallies, h'. split; [done|]. rewrite Hlookup, Hkey. simpl.
  unfold author_tally. rewrite (qualifying_none _ _ _ Hnone).
  unfold commits_of, sum_of, latest_of. by rewrite !map_fold_empty.
Qed.

Lemma sumOverPaths_uncounted_author_witness :
  table_allocated ex_heap ex_authors ∧
  ex_authors !! "ada@example.org" = Some ex_author ∧
  (∀ p t, paths ex_author !! p = Some t →
          ¬ ((∅ : gmap string bool) !! p = Some true ∨ false = true)) ∧
  ∃ tallies h',
    sumOverPaths ex_authors ∅ false ex_heap = Some (tallies, h') ∧
    tallies !! "ada@example.org"
    = Some {| AuthorName := name ex_author; AuthorEmail := email ex_author;
              Commits := 0; LinesAdded := 0; LinesRemoved := 0;
              FileCount := 0; LastCommitTime := time.zero |}.
Proof.
  assert (ex_authors !! "ada@example.org" = Some ex_author) as Hkey
    by reflexivity.
  assert (∀ p t, paths ex_author !! p = Some t →
            ¬ ((∅ : gmap string bool) !! p = Some true ∨ false = true))
    as Hnone.
  { intros p t _ [Hp|Hf]; [|done]. by rewrite lookup_empty in Hp. }
  split_and!; [exact ex_allocated|exact Hkey|exact Hnone|].
  exact (sumOverPaths_uncounted_author ex_authors ∅ false ex_heap
           "ada@example.org" ex_author ex_allocated Hkey Hnone).
Defined.

(** ** The override flag *)

Lemma range_map_ext {V S : Type} (body body' : S → string → V → M S)
    (s : S) (m : gmap string V) (h : heap) :
  (∀ s k v h, body s k v h = body' s k v h) →
  range_map body s m h = range_map body' s m h.
Proof.
  intros Hbody. unfold range_map. rewrite !map_fold_foldr. revert h.
  induction (map_to_list m) as [|[k v] l IH]; intros h; simpl; [done|].
  munfold. rewrite IH.
  match goal with
  | |- match ?x with _ => _ end = _ => destruct x as [[s' h']|]
  end; [apply Hbody|done].
Qed.

(** X15.  With the override flag set [sumOverPaths] does not depend on the
    working-tree filter set: every path counts, whatever the set holds. *)
Theorem sumOverPaths_override (authors : gmap string AuthorPaths)
    (wtreefiles wtreefiles' : gmap string bool) (h : heap) :
  sumOverPaths authors wtreefiles true h
  = sumOverPaths authors wtreefiles' true h.
Proof.
  unfold sumOverPaths. apply range_map_ext. clear h.
  intros tallies key author h. unfold sumOverPaths_author. munfold.
  destruct (newTally 0 h) as [[rt h1]|]; [|done].
  rewrite (range_map_ext _ (sumOverPaths_path wtreefiles' true)); [done|].
  intros r p t h2. unfold sumOverPaths_path. by rewrite !orb_true_r.
Qed.

(** ** The merge of the simple pipeline, key by key *)

(** X16.  The map [merge a b] has the keys of [a] and those of [b].  A key that
    only [b] has keeps [b]'s tally.  At a key of [a] the tally has [a]'s
    name, e-mail, lines and files, the sum of the two commit counts and
    the later of the two times, [b]'s part being the zero tally when [b]
    has no such key. *)
Theorem merge_entries (a b : gmap string Tally) :
  dom (TallyCommitsApplyMerge.merge a b) = dom a ∪ dom b ∧
  ∀ k,
    (a !! k = None → TallyCommitsApplyMerge.merge a b !! k = b !! k) ∧
    ∀ at', a !! k = Some at' →
      ∃ t, TallyCommitsApplyMerge.merge a b !! k = Some t ∧
        same_identity t at' ∧
        Commits t = Int.add (Commits at') (Commits (index zeroTally b k)) ∧
        LastCommitTime t
        = timeutils.Max (LastCommitTime at')
            (LastCommitTime (index zeroTally b k)).
Proof.
  split.
  - apply set_eq. intros k.
    rewrite elem_of_union, !elem_of_dom, MergeFacts.merge_lookup.
    destruct (a !! k); split; eauto. intros [[? [=]]|?]; done.
  - intros k. rewrite MergeFacts.merge_lookup. split.
    + by intros ->.
    + intros at' ->. eexists. split; [done|]. by repeat split.
Qed.



(** ** The merge of the diff pipeline *)

Section diff_merge.
Context (Union : AuthorPaths → AuthorPaths → M AuthorPaths).

Lemma diff_merge_lookup (a b : gmap string AuthorPaths) (h : heap) :
  ∀ u h', TallyCommitsDiffApplyMerge.merge Union a b h = Some (u, h') →
    (∀ k, a !! k = None → u !! k = b !! k) ∧
    (∀ k x, a !! k = Some x → b !! k = None → u !! k = Some x) ∧
    (∀ k x y, a !! k = Some x → b !! k = Some y →
       ∃ h1 h2 r, Union x y h1 = Some (r, h2) ∧ u !! k = Some r).
Proof.
  unfold TallyCommitsDiffApplyMerge.merge, range_map.
  apply (map_fold_weak_ind (λ (r : M (gmap string AuthorPaths)) a,
    ∀ u h', r h = Some (u, h') →
      (∀ k, a !! k = None → u !! k = b !! k) ∧
      (∀ k x, a !! k = Some x → b !! k = None → u !! k = Some x) ∧
      (∀ k x y, a !! k = Some x → b !! k = Some y →
         ∃ h1 h2 r, Union x y h1 = Some (r, h2) ∧ u !! k = Some r))).
  - intros u h' [= <- <-]. split_and!; [done|..];
      intros k x; by rewrite lookup_empty.
  - clear a. intros i x a r Hi IH u h'. munfold.
    destruct (r h) as [[u0 h0]|] eqn:Hr; [|done].
    destruct (IH u0 h0 eq_refl) as (Hb & Ha & Hboth).
    unfold TallyCommitsDiffApplyMerge.merge_entry. rewrite (Hb i Hi).
    assert (∀ w : gmap string AuthorPaths, (∀ k, k ≠ i → w !! k = u0 !! k) →
      (∀ k, <[i:=x]> a !! k = None → w !! k = b !! k) ∧
      (∀ k x', <[i:=x]> a !! k = Some x' → b !! k = None → k ≠ i →
               w !! k = Some x') ∧
      (∀ k x' y, <[i:=x]> a !! k = Some x' → b !! k = Some y → k ≠ i →
         ∃ h1 h2 r, Union x' y h1 = Some (r, h2) ∧ w !! k = Some r))
      as Hrest.
    { intros w Hw. split_and!.
      - intros k Hk. apply lookup_insert_None in Hk as [Hk Hne].
        rewrite Hw by done. by apply Hb.
      - intros k x' Hk Hbk Hne. rewrite lookup_insert_ne in Hk by done.
        rewrite Hw by done. by apply Ha.
      - intros k x' y Hk Hbk Hne. rewrite lookup_insert_ne in Hk by done.
        rewrite Hw by done. by eapply Hboth. }
    destruct (b !! i) as [y|] eqn:Hbi.
    + munfold. destruct (Union x y h0) as [[r' h1]|] eqn:HU; [|done].
      intros [= <- <-].
      destruct (Hrest (<[i:=r']> u0)) as (H1 & H2 & H3).
      { intros k Hne. by rewrite lookup_insert_ne. }
      split_and!; [done|..].
      * intros k x' Hk Hbk. destruct (decide (k = i)) as [->|Hne];
          [congruence|by apply H2].
      * intros k x' y' Hk Hbk. destruct (decide (k = i)) as [->|Hne];
          [|by eapply H3].
        rewrite lookup_insert_eq in Hk |- *. simplify_eq. eauto.
    + intros [= <- <-].
      destruct (Hrest (<[i:=x]> u0)) as (H1 & H2 & H3).
      { intros k Hne. by rewrite lookup_insert_ne. }
      split_and!; [done|..].
      * intros k x' Hk Hbk. destruct (decide (k = i)) as [->|Hne];
          [|by apply H2].
        rewrite lookup_insert_eq in Hk |- *. done.
      * intros k x' y' Hk Hbk. destruct (decide (k = i)) as [->|Hne];
          [congruence|by eapply H3].
Qed.

Lemma diff_merge_disjoint (a b : gmap string AuthorPaths) (h : heap) :
  dom a ## dom b →
  TallyCommitsDiffApplyMerge.merge Union a b h = Some (a ∪ b, h).
Proof.
  unfold TallyCommitsDiffApplyMerge.merge, range_map.
  apply (map_fold_weak_ind (λ (r : M (gmap string AuthorPaths)) a,
    dom a ## dom b → r h = Some (a ∪ b, h))).
  - intros _. by rewrite (left_id_L ∅ (∪)).
  - clear a. intros i x a r Hi IH Hdisj. rewrite dom_insert in Hdisj.
    munfold. rewrite IH by set_solver.
    unfold TallyCommitsDiffApplyMerge.merge_entry.
    assert (b !! i = None) as Hbi.
    { apply not_elem_of_dom. set_solver. }
    rewrite lookup_union, Hi, Hbi. simpl. munfold.
    by rewrite insert_union_l.
Qed.

End diff_merge.

(** X18.  Whatever [AuthorPaths.Union] does, the [merge] of the diff pipeline
    gives its result the authors of [a] and those of [b]; an author that
    only one of the two tables has is passed on as it is, and [Union] is
    called for an author that both have, with [a]'s entry as the receiver
    and [b]'s own entry as the argument.  When the tables share no author
    [Union] is not called at all: the result is the two tables put
    together and the store is as before. *)
Theorem diff_merge_entries
    (Union : AuthorPaths → AuthorPaths → M AuthorPaths)
    (a b : gmap string AuthorPaths) (h : heap) :
  (dom a ## dom b →
   TallyCommitsDiffApplyMerge.merge Union a b h = Some (a ∪ b, h)) ∧
  ∀ u h', TallyCommitsDiffApplyMerge.merge Union a b h = Some (u, h') →
    dom u = dom a ∪ dom b ∧
    (∀ k, a !! k = None → u !! k = b !! k) ∧
    (∀ k x, a !! k = Some x → b !! k = None → u !! k = Some x) ∧
    (∀ k x y, a !! k = Some x → b !! k = Some y →
       ∃ h1 h2 r, Union x y h1 = Some (r, h2) ∧ u !! k = Some r).
Proof.
  split; [apply diff_merge_disjoint|].
  intros u h' Hu.
  destruct (diff_merge_lookup Union a b h u h' Hu) as (Hb & Ha & Hboth).
  split_and!; [|done..].
  apply set_eq. intros k. rewrite elem_of_union, !elem_of_dom.
  destruct (a !! k) as [x|] eqn:Hak.
  - destruct (b !! k) as [y|] eqn:Hbk.
    + destruct (Hboth k x y Hak Hbk) as (? & ? & r & _ & ->). naive_solver.
    + rewrite (Ha k x Hak Hbk). naive_solver.
  - rewrite (Hb k Hak). split; [eauto|]. intros [[? [=]]|?]; done.
Qed.

(** ** Files and the filter set *)

Lemma sum_of_ones (ps : gmap string intermediateTally) :
  (∀ p t, ps !! p = Some t → numTallied t = 1) →
  sum_of numTallied ps = Z.of_nat (size ps).
Proof.
  induction ps as [|p t ps Hp IH] using map_ind; intros Hone.
  - unfold sum_of. by rewrite map_fold_empty, map_size_empty.
  - rewrite sum_of_insert, map_size_insert_None by done.
    rewrite (Hone p t) by apply lookup_insert_eq.
    rewrite IH; [lia|]. intros p' t' Hp'. apply (Hone p').
    rewrite lookup_insert_ne; [done|]. congruence.
Qed.

(** X19.  When every path of an author carries the tallied-count 1, the author's
    [FileCount] is the number of the author's counted paths, however many
    commits touched each of them. *)
Theorem sumOverPaths_FileCount (authors : gmap string AuthorPaths)
    (wtreefiles : gmap string bool) (allowOutsideWorktree : bool) (h : heap)
    (key : string) (author : AuthorPaths)
    (Halloc : table_allocated h authors)
    (Hkey : authors !! key = Some author)
    (Hone : ∀ p t, paths author !! p = Some t → numTallied t = 1)
    (Hsize : Z.of_nat (size (paths author)) < 2 ^ 63) :
  ∃ tallies h' t,
    sumOverPaths authors wtreefiles allowOutsideWorktree h
      = Some (tallies, h') ∧
    tallies !! key = Some t ∧
    FileCount t
    = Z.of_nat (size (qualifying wtreefiles allowOutsideWorktree
                        (paths author))).
Proof.
  destruct (sumOverPaths_spec wtreefiles allowOutsideWorktree h authors Halloc)
    as (tallies & h' & E & _ & Hlookup).
  eexists tallies, h', _. split; [done|]. rewrite Hlookup, Hkey. simpl.
  split; [done|]. simpl. rewrite sum_of_ones.
  - apply IntFacts.wrap64_id. unfold Int.in_range.
    pose proof (map_subseteq_size
                  (qualifying wtreefiles allowOutsideWorktree (paths author))
                  (paths author)) as Hle.
    assert (qualifying wtreefiles allowOutsideWorktree (paths author)
            ⊆ paths author) as Hsub by apply map_filter_subseteq.
    specialize (Hle Hsub). lia.
  - intros p t Hp. apply qualifying_lookup in Hp as [Hp _]. by eapply Hone.
Qed.

Lemma sumOverPaths_FileCount_witness :
  table_allocated ex_heap ex_authors ∧
  ex_authors !! "ada@example.org" = Some ex_author ∧
  (∀ p t, paths ex_author !! p = Some t → numTallied t = 1) ∧
  Z.of_nat (size (paths ex_author)) < 2 ^ 63 ∧
  ∃ tallies h' t,
    sumOverPaths ex_authors ex_wtree false ex_heap = Some (tallies, h') ∧
    tallies !! "ada@example.org" = Some t ∧
    FileCount t = Z.of_nat (size (qualifying ex_wtree false
                                    (paths ex_author))).
Proof.
  assert (ex_authors !! "ada@example.org" = Some ex_author) as Hkey
    by reflexivity.
  assert (∀ p t, paths ex_author !! p = Some t → numTallied t = 1) as Hone.
  { apply map_Forall_lookup, (bool_decide_unpack _). by vm_compute. }
  assert (Z.of_nat (size (paths ex_author)) < 2 ^ 63) as Hsize
    by (by vm_compute).
  split_and!; [exact ex_allocated|exact Hkey|exact Hone|exact Hsize|].
  exact (sumOverPaths_FileCount ex_authors ex_wtree false ex_heap
           "ada@example.org" ex_author ex_allocated Hkey Hone Hsize).
Defined.

(** X20.  A larger working-tree filter set never lowers an author's commit
    count: if every path of [wtreefiles] is also in [wtreefiles'], each
    author has at least as many commits under [wtreefiles'] as under
    [wtreefiles]. *)
Theorem sumOverPaths_monotone (authors : gmap string AuthorPaths)
    (wtreefiles wtreefiles' : gmap string bool)
    (allowOutsideWorktree : bool) (h : heap)
    (Halloc : table_allocated h authors)
    (Hsub : ∀ p, wtreefiles !! p = Some true → wtreefiles' !! p = Some true) :
  ∃ tallies h1 tallies' h2,
    sumOverPaths authors wtreefiles allowOutsideWorktree h
      = Some (tallies, h1) ∧
    sumOverPaths authors wtreefiles' allowOutsideWorktree h
      = Some (tallies', h2) ∧
    ∀ key t, tallies !! key = Some t →
      ∃ t', tallies' !! key = Some t' ∧ Commits t ≤ Commits t'.
Proof.
  destruct (sumOverPaths_spec wtreefiles allowOutsideWorktree h authors Halloc)
    as (tallies & h1 & E & _ & Hlookup).
  destruct (sumOverPaths_spec wtreefiles' allowOutsideWorktree h authors
              Halloc) as (tallies' & h2 & E' & _ & Hlookup').
  exists tallies, h1, tallies', h2. split_and!; [done..|].
  intros key t. rewrite Hlookup, Hlookup'.
  destruct (authors !! key) as [author|]; [|done]. simpl.
  intros [= <-]. eexists. split; [done|]. simpl.
  apply inj_le, subseteq_size. intros c.
  rewrite !elem_of_commits_of. intros (p & t & Hp & Hc).
  exists p, t. split; [|done].
  apply qualifying_lookup in Hp as [Hp Hcond].
  apply qualifying_lookup. split; [done|]. destruct Hcond; auto.
Qed.

Lemma sumOverPaths_monotone_witness :
  table_allocated ex_heap ex_authors ∧
  (∀ p, (∅ : gmap string bool) !! p = Some true →
        ex_wtree !! p = Some true) ∧
  ∃ tallies h1 tallies' h2,
    sumOverPaths ex_authors ∅ false ex_heap = Some (tallies, h1) ∧
    sumOverPaths ex_authors ex_wtree false ex_heap = Some (tallies', h2) ∧
    ∀ key t, tallies !! key = Some t →
      ∃ t', tallies' !! key = Some t' ∧ Commits t ≤ Commits t'.
Proof.
  assert (∀ p, (∅ : gmap string bool) !! p = Some true →
               ex_wtree !! p = Some true) as Hsub.
  { intros p Hp. by rewrite lookup_empty in Hp. }
  split_and!; [exact ex_allocated|exact Hsub|].
  exact (sumOverPaths_monotone ex_authors ∅ ex_wtree false ex_heap
           ex_allocated Hsub).
Defined.
